(** * tilores-insights, package [record]: value extraction and numeric aggregation

    A shallow embedding of [record/average.go] and [record/standarddeviation.go]
    together with the path resolver and the coercions they are built on, and
    the properties of the specification proved over that embedding.

    Go's [float64] is modelled by the Standard Library's executable IEEE 754
    specification ([SpecFloat], binary64: 53 bits of precision, [emax] 1024,
    round to nearest even), so every aggregate is computed bit for bit.  Each
    floating-point operation is rounded on its own (no fused multiply-add). *)

From Stdlib Require Import ZArith Lia List Bool String Ascii.
From Stdlib Require Import Sorting.Sorted Sorting.Permutation.
From Stdlib Require Import Floats.SpecFloat.
Import ListNotations.

Local Open Scope Z_scope.

(** ** float64 *)

Module F64.

Definition prec : Z := 53.
Definition emax : Z := 1024.

Definition float64 : Type := spec_float.

Definition add : float64 -> float64 -> float64 := SFadd prec emax.
Definition sub : float64 -> float64 -> float64 := SFsub prec emax.
Definition mul : float64 -> float64 -> float64 := SFmul prec emax.
Definition div : float64 -> float64 -> float64 := SFdiv prec emax.
Definition sqrt : float64 -> float64 := SFsqrt prec emax.
Definition eqb : float64 -> float64 -> bool := SFeqb.

(** The literal [0.0]. *)
Definition zero : float64 := S754_zero false.

(** The literal [1.0], the step of [counted++]. *)
Definition one : float64 := S754_finite false 4503599627370496 (-52).

(** The float64 nearest to an integer (exact up to 2^53). *)
Definition of_Z (n : Z) : float64 := binary_normalize prec emax n 0 false.

(** A counter that was incremented at least once: strictly positive,
    finite with an exponent in range, or saturated at +infinity. *)
Definition positive_count (c : float64) : bool :=
  match c with
  | S754_finite false _ e => emin prec emax <=? e
  | S754_infinity false => true
  | _ => false
  end.

End F64.

Import F64.

(** ** The data model *)

Local Open Scope string_scope.

(** The dynamically typed tree a record carries, as [encoding/json] decodes a
    document into [any]: [nil], [bool], [float64], [string], [[]any] and
    [map[string]any].  A mapping is kept as the list of its entries in
    insertion order, which is what makes the order of serialization a
    property to prove. *)
#[warnings="-register-all"]
Inductive Value : Type :=
| VNull
| VBool (b : bool)
| VNumber (f : float64)
| VString (s : string)
| VSequence (l : list Value)
| VMapping (m : list (string * Value)).

(** [api.Record]: an identifier and the data tree, a [map[string]any] that is
    [nil] in the zero record. *)
Record Record : Type := {
  ID : string;
  Data : option (list (string * Value))
}.

(** The only error of the package; it carries the resolved value that could
    not be read as a number, so that the errors of different records can be
    told apart. *)
Inductive error : Type :=
| NotNumeric (v : Value).

(** ** Strings *)

(** [strings.Split(path, ".")]: the empty path has one segment, the empty
    string. *)
Fixpoint split_path (path : string) : list string :=
  match path with
  | EmptyString => [EmptyString]
  | String c rest =>
      if Ascii.eqb c "." then EmptyString :: split_path rest
      else match split_path rest with
           | seg :: segs => String c seg :: segs
           | [] => [String c EmptyString]
           end
  end.

Definition is_digit (c : ascii) : bool :=
  ((48 <=? N_of_ascii c) && (N_of_ascii c <=? 57))%N.

Definition digit_value (c : ascii) : N := (N_of_ascii c - 48)%N.

(** The digits of [s] read in base 10 on top of [acc]; [None] at the first
    character that is not a digit. *)
Fixpoint parse_digits (s : string) (acc : N) : option N :=
  match s with
  | EmptyString => Some acc
  | String c rest =>
      if is_digit c then parse_digits rest (10 * acc + digit_value c)%N
      else None
  end.

(** A list index: a non-empty run of decimal digits, no sign, nothing else. *)
Definition parse_index (seg : string) : option N :=
  match seg with
  | EmptyString => None
  | _ => parse_digits seg 0%N
  end.

(** ASCII lower-casing, byte by byte. *)
Definition lower_char (c : ascii) : ascii :=
  if ((65 <=? N_of_ascii c) && (N_of_ascii c <=? 90))%N
  then ascii_of_N (N_of_ascii c + 32)
  else c.

Fixpoint to_lower (s : string) : string :=
  match s with
  | EmptyString => EmptyString
  | String c rest => String (lower_char c) (to_lower rest)
  end.

(** ** Path Resolver *)

(** The first entry of a mapping under a key. *)
Fixpoint lookup (key : string) (m : list (string * Value)) : option Value :=
  match m with
  | [] => None
  | (k, v) :: rest => if String.eqb k key then Some v else lookup key rest
  end.

(** Modelled from the spec: the walk of the Path Resolver (section 4.1),
    whose source file [record/extract.go] is not available.  One segment at a
    time: a mapping looks the segment up as a key, a sequence reads it as an
    index inside [0, length), a scalar with segments left cannot be
    descended.  [None] is NotFound; a present [null] is [Some VNull]. *)
Fixpoint resolve (v : Value) (segments : list string) : option Value :=
  match segments with
  | [] => Some v
  | seg :: rest =>
      match v with
      | VMapping m =>
          match lookup seg m with
          | Some child => resolve child rest
          | None => None
          end
      | VSequence l =>
          match parse_index seg with
          | Some i =>
              if (i <? N.of_nat (List.length l))%N then
                match nth_error l (N.to_nat i) with
                | Some child => resolve child rest
                | None => None
                end
              else None
          | None => None
          end
      | _ => None
      end
  end.

(** Modelled from the spec: [Extract(record, path)] (section 4.1), absent
    from the available sources.  An absent record or an absent data tree is
    NotFound; otherwise the path is split on dots and walked from the root
    mapping. *)
Definition Extract (record : option Record) (path : string) : option Value :=
  match record with
  | None => None
  | Some r =>
      match Data r with
      | None => None
      | Some m => resolve (VMapping m) (split_path path)
      end
  end.

(** ** Decimal literals and decimal rendering of float64

    The conversions the coercions rely on ([strconv] in the Go sources). *)

Module Strconv.

Local Open Scope Z_scope.

(** The longest prefix of decimal digits, and what follows it. *)
Fixpoint span_digits (s : string) : string * string :=
  match s with
  | EmptyString => (EmptyString, EmptyString)
  | String c rest =>
      if is_digit c
      then let (ds, tl) := span_digits rest in (String c ds, tl)
      else (EmptyString, s)
  end.

Definition read_sign (s : string) : bool * string :=
  match s with
  | String c rest =>
      if Ascii.eqb c "-" then (true, rest)
      else if Ascii.eqb c "+" then (false, rest)
      else (false, s)
  | EmptyString => (false, s)
  end.

(** The value of a run of digits. *)
Fixpoint digits_value (ds : string) (acc : N) : N :=
  match ds with
  | EmptyString => acc
  | String c rest => digits_value rest (10 * acc + digit_value c)%N
  end.

(** What follows the [e]: an optional sign and at least one digit, up to
    the end of the literal. *)
Definition parse_exponent (s : string) : option Z :=
  let (neg, ds) := read_sign s in
  match parse_index ds with
  | Some n => Some (if neg then - Z.of_N n else Z.of_N n)
  | None => None
  end.

(** The float64 nearest to [(-1)^neg * d * 10^p] (round to nearest even);
    a magnitude that rounds to infinity is out of range. *)
Definition decimal_to_float (neg : bool) (d : N) (p : Z) : option float64 :=
  match d with
  | N0 => Some (S754_zero neg)
  | Npos m =>
      let r :=
        if 0 <=? p
        then binary_round prec emax neg (m * Z.to_pos (10 ^ p)) 0
        else SFdiv prec emax (S754_finite neg m 0)
                             (S754_finite false (Z.to_pos (10 ^ (- p))) 0) in
      match r with
      | S754_infinity _ => None
      | _ => Some r
      end
  end.

(** Modelled from the spec: parsing of a floating-point literal in standard
    decimal or exponent notation (section 4.2), the conversion Number
    Coercion applies to a string; the calling code is not available.
    An optional sign, digits with an optional point among them (at least
    one digit in all), then optionally [e] or [E], an optional sign and at
    least one digit; the value is correctly rounded.  Anything else fails
    to parse. *)
Definition ParseFloat (s : string) : option float64 :=
  let (neg, s1) := read_sign s in
  let (ip, s2) := span_digits s1 in
  let (fp, s3) :=
    match s2 with
    | String c r => if Ascii.eqb c "." then span_digits r else (EmptyString, s2)
    | EmptyString => (EmptyString, s2)
    end in
  if (String.length ip + String.length fp =? 0)%nat then None
  else
    let oexp :=
      match s3 with
      | EmptyString => Some 0
      | String c r =>
          if Ascii.eqb c "e" || Ascii.eqb c "E" then parse_exponent r else None
      end in
    match oexp with
    | None => None
    | Some ex =>
        decimal_to_float neg (digits_value (ip ++ fp) 0)
                         (ex - Z.of_nat (String.length fp))
    end.

(** Base-10 digits of a natural number, most significant first. *)
Fixpoint decimal_digits (fuel : nat) (n : N) (acc : string) : string :=
  match fuel with
  | O => acc
  | S fuel' =>
      let acc' := String (ascii_of_N (48 + n mod 10)) acc in
      if (n <? 10)%N then acc' else decimal_digits fuel' (n / 10) acc'
  end.

Definition string_of_N (n : N) : string :=
  decimal_digits (S (N.to_nat (N.log2 n))) n EmptyString.

Fixpoint zeros (n : nat) : string :=
  match n with
  | O => EmptyString
  | S n' => String "0" (zeros n')
  end.

Definition ceil_div (a b : Z) : Z := - ((- a) / b).

(** The decimals [d * 10^p] that read back as the float [m * 2^e]: the
    integers [d] between the two returned bounds.  The rounding interval of
    the float reaches half-way to each neighbour and includes its end
    points exactly when [m] is even; it is measured here in units of
    [2^(e-2)] so that the bounds stay integers. *)
Definition round_trip_range (m : positive) (e p : Z) : Z * Z :=
  let v := 4 * Zpos m in
  let narrow := (Zpos m =? 2 ^ (prec - 1)) && (emin prec emax <? e) in
  let lo := v - (if narrow then 1 else 2) in
  let hi := v + 2 in
  let sn := 2 ^ Z.max (e - 2) 0 * 10 ^ Z.max (- p) 0 in
  let sd := 2 ^ Z.max (2 - e) 0 * 10 ^ Z.max p 0 in
  if Z.even (Zpos m)
  then (ceil_div (lo * sn) sd, (hi * sn) / sd)
  else ((lo * sn) / sd + 1, ceil_div (hi * sn) sd - 1).

(** The integer nearest to [m * 2^e / 10^p], ties to even. *)
Definition nearest_decimal (m : positive) (e p : Z) : Z :=
  let sn := 2 ^ Z.max e 0 * 10 ^ Z.max (- p) 0 in
  let sd := 2 ^ Z.max (- e) 0 * 10 ^ Z.max p 0 in
  let q := (Zpos m * sn) / sd in
  let r := (Zpos m * sn) mod sd in
  match 2 * r ?= sd with
  | Lt => q
  | Gt => q + 1
  | Eq => if Z.even q then q else q + 1
  end.

(** The shortest decimal that reads back as [m * 2^e]: the largest power of
    ten [p] at which some [d * 10^p] falls in the rounding interval, and
    there the [d] nearest to the float.  [p] runs downwards from [top]. *)
Fixpoint shortest_decimal (fuel : nat) (m : positive) (e top : Z) : Z * Z :=
  match fuel with
  | O => (Zpos m * 2 ^ Z.max e 0, 0)
  | S fuel' =>
      let (dmin, dmax) := round_trip_range m e top in
      if dmin <=? dmax
      then (Z.max dmin (Z.min dmax (nearest_decimal m e top)), top)
      else shortest_decimal fuel' m e (top - 1)
  end.

(** A power of ten above the rounding interval of [m * 2^e], from the length
    of [m] in bits: the decimal logarithm of 2 lies between 0.30102 and
    0.30103. *)
Definition decimal_ceiling (m : positive) (e : Z) : Z :=
  let bits := Zpos (digits2_pos m) + e in
  (if 0 <=? bits then bits * 30103 / 100000 else bits * 30102 / 100000) + 3.

(** Positional notation of [d * 10^p], without exponent. *)
Definition positional (d p : Z) : string :=
  let ds := string_of_N (Z.to_N d) in
  let n := Z.of_nat (String.length ds) in
  if 0 <=? p then ds ++ zeros (Z.to_nat p)
  else if - p <? n
       then substring 0 (Z.to_nat (n + p)) ds ++ "." ++
            substring (Z.to_nat (n + p)) (Z.to_nat (- p)) ds
       else "0." ++ zeros (Z.to_nat (- p - n)) ++ ds.

(** Modelled from the spec: the minimal decimal representation of a number
    (section 4.3), the rendering String Coercion applies to a number; the
    calling code is not available.  The shortest digits that read back as
    the same float64, in positional notation: an integral value has no
    fractional part, there are no trailing zeros after the point and no
    plus sign. *)
Definition FormatFloat (f : float64) : string :=
  match f with
  | S754_nan => "NaN"
  | S754_infinity s => if s then "-Inf" else "+Inf"
  | S754_zero s => if s then "-0" else "0"
  | S754_finite s m e =>
      let (d, p) := shortest_decimal 40 m e (decimal_ceiling m e) in
      (if s then "-" else EmptyString) ++ positional d p
  end.

End Strconv.

Import Strconv.

(** ** Number Coercion *)

(** Modelled from the spec: [ExtractNumber(record, path)] (section 4.2),
    absent from the available sources.  The two components are the pointer
    to a float64 and the error that the Go function returns: NotFound and
    [null] are absent without error, a number is returned as it is, a string
    is parsed as a floating-point literal, and every other value is
    [NotNumeric]. *)
Definition ExtractNumber (record : option Record) (path : string)
  : option float64 * option error :=
  match Extract record path with
  | None => (None, None)
  | Some VNull => (None, None)
  | Some (VNumber f) => (Some f, None)
  | Some (VString s) =>
      match ParseFloat s with
      | Some f => (Some f, None)
      | None => (None, Some (NotNumeric (VString s)))
      end
  | Some v => (None, Some (NotNumeric v))
  end.

(** ** String Coercion *)

Definition fold_case (caseSensitive : bool) (s : string) : string :=
  if caseSensitive then s else to_lower s.

Definition bool_string (b : bool) : string := if b then "true" else "false".

(** The string form of a scalar, before case folding. *)
Definition scalar_string (v : Value) : option string :=
  match v with
  | VBool b => Some (bool_string b)
  | VNumber f => Some (FormatFloat f)
  | VString s => Some s
  | _ => None
  end.

(** Every scalar leaf of a composite replaced by its case-folded string form;
    keys and [null] leaves are left as they are. *)
Fixpoint normalize (caseSensitive : bool) (v : Value) : Value :=
  match v with
  | VNull => VNull
  | VBool b => VString (fold_case caseSensitive (bool_string b))
  | VNumber f => VString (fold_case caseSensitive (FormatFloat f))
  | VString s => VString (fold_case caseSensitive s)
  | VSequence l => VSequence (map (normalize caseSensitive) l)
  | VMapping m =>
      VMapping (map (fun kv => let '(k, x) := kv in (k, normalize caseSensitive x)) m)
  end.

Definition dquote : ascii := ascii_of_N 34.
Definition backslash : ascii := ascii_of_N 92.

(** A string between double quotes, a backslash before each double quote and
    each backslash. *)
Fixpoint escape (s : string) : string :=
  match s with
  | EmptyString => EmptyString
  | String c rest =>
      if Ascii.eqb c dquote || Ascii.eqb c backslash
      then String backslash (String c (escape rest))
      else String c (escape rest)
  end.

Definition quote (s : string) : string :=
  String dquote (escape s ++ String dquote EmptyString).

Section SortEntries.

Context {A : Type}.

(** Insertion of an entry before the first key that is not smaller. *)
Fixpoint insert_entry (kv : string * A) (l : list (string * A)) : list (string * A) :=
  match l with
  | [] => [kv]
  | x :: rest =>
      if String.leb (fst kv) (fst x) then kv :: l else x :: insert_entry kv rest
  end.

(** The entries ordered by key, ascending in the byte-wise lexicographic
    order of strings. *)
Definition sort_entries (l : list (string * A)) : list (string * A) :=
  fold_right insert_entry [] l.

End SortEntries.

Definition member (kt : string * string) : string := quote (fst kt) ++ ":" ++ snd kt.

(** The compact JSON-like text of a tree: no whitespace, the elements of a
    sequence in their order, the members of a mapping ordered by key. *)
Fixpoint marshal (v : Value) : string :=
  match v with
  | VNull => "null"
  | VBool b => bool_string b
  | VNumber f => FormatFloat f
  | VString s => quote s
  | VSequence l => "[" ++ String.concat "," (map marshal l) ++ "]"
  | VMapping m =>
      "{" ++ String.concat ","
               (map member
                  (sort_entries (map (fun kv => let '(k, x) := kv in (k, marshal x)) m)))
          ++ "}"
  end.

(** Modelled from the spec: [ExtractString(record, path, caseSensitive)]
    (section 4.3), absent from the available sources.  NotFound and [null]
    are absent; a scalar becomes its string form, lower-cased unless
    [caseSensitive]; a composite is normalized leaf by leaf and serialized. *)
Definition ExtractString (record : option Record) (path : string)
    (caseSensitive : bool) : option string :=
  match Extract record path with
  | None => None
  | Some VNull => None
  | Some (VSequence l) => Some (marshal (normalize caseSensitive (VSequence l)))
  | Some (VMapping m) => Some (marshal (normalize caseSensitive (VMapping m)))
  | Some v => option_map (fold_case caseSensitive) (scalar_string v)
  end.

(** ** Aggregators *)

(** What a call ends in: a return, or a run-time panic. *)
Inductive outcome (A : Type) : Type :=
| Returns (a : A)
| Panics.

Arguments Returns {A} a.
Arguments Panics {A}.

(** [record/average.go], the loop of [Average]: [sum] and [counted] are the
    two float64 accumulators. *)
Fixpoint average_loop (records : list (option Record)) (path : string)
    (sum counted : float64) : option float64 * option error :=
  match records with
  | [] =>
      if F64.eqb counted zero then (None, None)
      else (Some (F64.div sum counted), None)
  | record :: rest =>
      let (number, err) := ExtractNumber record path in
      match err with
      | Some e => (None, Some e)
      | None =>
          match number with
          | Some n => average_loop rest path (F64.add sum n) (F64.add counted one)
          | None => average_loop rest path sum counted
          end
      end
  end.

(** [record/average.go], [Average]. *)
Definition Average (records : list (option Record)) (path : string)
  : option float64 * option error :=
  match records with
  | [] => (None, None)
  | _ => average_loop records path zero zero
  end.

(** [record/standarddeviation.go], the second loop of [StandardDeviation];
    [*avg] on a nil [avg] is the nil-pointer panic. *)
Fixpoint deviation_loop (records : list (option Record)) (path : string)
    (avg : option float64) (difSquareSum counted : float64)
  : outcome (option float64 * option error) :=
  match records with
  | [] =>
      if F64.eqb counted zero then Returns (None, None)
      else Returns (Some (F64.sqrt (F64.div difSquareSum counted)), None)
  | record :: rest =>
      let (number, err) := ExtractNumber record path in
      match err with
      | Some e => Returns (None, Some e)
      | None =>
          match number with
          | Some n =>
              match avg with
              | None => Panics
              | Some a =>
                  let dif := F64.sub n a in
                  deviation_loop rest path avg
                    (F64.add difSquareSum (F64.mul dif dif)) (F64.add counted one)
              end
          | None => deviation_loop rest path avg difSquareSum counted
          end
      end
  end.

(** [record/standarddeviation.go], [StandardDeviation]. *)
Definition StandardDeviation (records : list (option Record)) (path : string)
  : outcome (option float64 * option error) :=
  match records with
  | [] => Returns (None, None)
  | _ =>
      let (avg, err) := Average records path in
      match err with
      | Some e => Returns (None, Some e)
      | None => deviation_loop records path avg zero zero
      end
  end.

(** ** The aggregates as the specification words them *)

(** No record of the collection makes Number Coercion fail. *)
Definition no_error (records : list (option Record)) (path : string) : Prop :=
  Forall (fun r => snd (ExtractNumber r path) = None) records.

(** The present numeric values, in iteration order; a record whose value is
    absent contributes nothing. *)
Definition present_values (records : list (option Record)) (path : string)
  : list float64 :=
  flat_map (fun r => match fst (ExtractNumber r path) with
                     | Some n => [n]
                     | None => []
                     end) records.

(** Sum and count of a list of values, accumulated in float64 from [0.0]
    in list order. *)
Definition fsum (vals : list float64) : float64 := fold_left F64.add vals zero.

Definition fcount (vals : list float64) : float64 :=
  fold_left (fun c _ => F64.add c one) vals zero.

Definition mean (vals : list float64) : float64 := F64.div (fsum vals) (fcount vals).

(** Sum of the squared deviations from [a]. *)
Definition squared_deviations (a : float64) (vals : list float64) : float64 :=
  fold_left (fun acc v => F64.add acc (F64.mul (F64.sub v a) (F64.sub v a))) vals zero.

(** Population standard deviation: the divisor is the count itself. *)
Definition population_sd (vals : list float64) : float64 :=
  F64.sqrt (F64.div (squared_deviations (mean vals) vals) (fcount vals)).

(** ** Vocabulary of the statements *)

Fixpoint all_digits (s : string) : bool :=
  match s with
  | EmptyString => true
  | String c rest => is_digit c && all_digits rest
  end.

(** A segment that is a non-negative base-10 integer and nothing more. *)
Definition is_index (seg : string) : bool :=
  negb (String.eqb seg EmptyString) && all_digits seg.

Definition is_scalar (v : Value) : bool :=
  match v with
  | VSequence _ | VMapping _ => false
  | _ => true
  end.

(** Entries in ascending order of their keys. *)
Definition key_le {A : Type} (x y : string * A) : Prop :=
  String.leb (fst x) (fst y) = true.

(** The members of a mapping as String Coercion writes them, before they are
    ordered: each key with the text of its normalized value. *)
Definition rendered (caseSensitive : bool) (m : list (string * Value))
  : list (string * string) :=
  map (fun kv => let '(k, x) := kv in (k, marshal (normalize caseSensitive x))) m.

(** The same tree up to the order in which the entries of its mappings, at
    any depth, were inserted; no key occurs twice in a reordered mapping. *)
Inductive reordered : Value -> Value -> Prop :=
| reordered_refl (v : Value) : reordered v v
| reordered_trans (v1 v2 v3 : Value) :
    reordered v1 v2 -> reordered v2 v3 -> reordered v1 v3
| reordered_entries (m m' : list (string * Value)) :
    Permutation m m' -> NoDup (map fst m) -> reordered (VMapping m) (VMapping m')
| reordered_in_mapping (m1 m2 : list (string * Value)) (k : string) (v v' : Value) :
    reordered v v' ->
    reordered (VMapping (m1 ++ (k, v) :: m2)) (VMapping (m1 ++ (k, v') :: m2))
| reordered_in_sequence (l1 l2 : list Value) (v v' : Value) :
    reordered v v' ->
    reordered (VSequence (l1 ++ v :: l2)) (VSequence (l1 ++ v' :: l2)).

(** The tree that holds [leaf] under a chain of keys. *)
Fixpoint nest (segments : list string) (leaf : Value) : Value :=
  match segments with
  | [] => leaf
  | seg :: rest => VMapping [(seg, nest rest leaf)]
  end.

(** A fresh record whose value at [path] is the string scalar [s]. *)
Definition fresh_record (path s : string) : option Record :=
  Some {| ID := "fresh"; Data := Some [(hd EmptyString (split_path path),
                                        nest (tl (split_path path)) (VString s))] |}.




(** ** Sample data *)

(** A record holding one number under one key. *)
Definition number_record (key : string) (f : float64) : option Record :=
  Some {| ID := "some-id"; Data := Some [(key, VNumber f)] |}.

(** The eight values of the standard-deviation example. *)
Definition eight_values : list float64 :=
  map of_Z [2; 4; 4; 4; 5; 5; 7; 9]%Z.

(** A collection with a nil record, a record without data, a record that
    lacks the key, one holding [null] and two holding numbers. *)
Definition mixed_records : list (option Record) :=
  [ None;
    Some {| ID := "a"; Data := None |};
    Some {| ID := "b"; Data := Some [("other", VNumber (of_Z 1))] |};
    Some {| ID := "c"; Data := Some [("value", VNull)] |};
    number_record "value" (of_Z 10);
    Some {| ID := "d"; Data := Some [("value", VString "20")] |} ].

(** A collection whose third record holds a boolean and whose fifth holds a
    sequence at the path. *)
Definition faulty_records : list (option Record) :=
  [ number_record "value" (of_Z 1);
    None;
    Some {| ID := "x"; Data := Some [("value", VBool true)] |};
    number_record "value" (of_Z 2);
    Some {| ID := "y"; Data := Some [("value", VSequence [])] |} ].

(** Text between double quotes, for expected results. *)
Definition quoted (s : string) : string := String dquote (s ++ String dquote EmptyString).

(** The float64 the literal [123.4] denotes. *)
Definition f123_4 : float64 := S754_finite false 8683503031523738 (-46).

Definition abc_list : Value := VSequence [VString "abc"; VString "DEF"; VString "geh"].

(** The record of [TestExtract] in [record/extract_test.go]. *)
Definition extract_test_record : option Record :=
  Some {| ID := "some-id";
          Data := Some
            [ ("value", VString "string");
              ("nested", VMapping
                 [ ("value", VString "nested string value");
                   ("super", VMapping [("value", VString "Super Nested String Value")]) ]);
              ("int", VNumber (of_Z 123));
              ("list", abc_list);
              ("nullValue", VNull);
              ("emptyString", VString EmptyString) ] |}.

(** The record of [TestExtractNumber]. *)
Definition number_test_record : option Record :=
  Some {| ID := "some-id";
          Data := Some
            [ ("nonnumeric", VString "string");
              ("int", VNumber (of_Z 123));
              ("float", VNumber f123_4);
              ("nullValue", VNull);
              ("numericText", VString "123");
              ("exponent", VString "1e3");
              ("nested", VMapping [("value", VString "123")]) ] |}.

(** The record of [TestExtractString]; its document names [nested] twice and
    the decoder keeps the second mapping. *)
Definition string_test_record : option Record :=
  Some {| ID := "some-id";
          Data := Some
            [ ("list", abc_list);
              ("keepUpper", VString "Has Upper Case");
              ("caseInsensitive", VString "Has Upper Case");
              ("bool", VBool true);
              ("emptyString", VString EmptyString);
              ("int", VNumber (of_Z 123));
              ("float", VNumber f123_4);
              ("nullValue", VNull);
              ("numericText", VString "123");
              ("exponent", VString "1e3");
              ("nested", VMapping [("propB", VString "valB"); ("propA", VString "valA")]) ] |}.

(** Two trees that differ in the order of their entries at three places. *)
Definition deep_tree : Value :=
  VMapping
    [ ("b", VMapping [("y", VString "Y"); ("x", VString "X")]);
      ("a", VSequence [VMapping [("q", VNull); ("p", VBool true)]]) ].

Definition deep_tree_reordered : Value :=
  VMapping
    [ ("a", VSequence [VMapping [("p", VBool true); ("q", VNull)]]);
      ("b", VMapping [("x", VString "X"); ("y", VString "Y")]) ].

(** ** Vocabulary of the further properties *)

(** The record contributes neither a value nor an error at the path. *)
Definition holds_nothing (path : string) (r : option Record) : bool :=
  match ExtractNumber r path with
  | (None, None) => true
  | _ => false
  end.

(** Not below zero: a NaN, or a float64 whose sign bit is clear. *)
Definition not_negative (x : float64) : bool :=
  match x with
  | S754_nan => true
  | S754_zero s | S754_infinity s | S754_finite s _ _ => negb s
  end.

(** The sign of a rounded result: that of the exact value, unless it is NaN. *)
Definition has_sign (s : bool) (x : float64) : bool :=
  match x with
  | S754_nan => true
  | S754_zero s' | S754_infinity s' | S754_finite s' _ _ => Bool.eqb s s'
  end.

(** A float64 proper: its mantissa and exponent are those of a binary64. *)
Definition well_formed (x : float64) : bool := valid_binary prec emax x.

Definition is_finite (x : float64) : bool :=
  match x with
  | S754_zero _ | S754_finite _ _ _ => true
  | _ => false
  end.

(** A collection in which one record holds a number and the others nothing. *)
Definition lone_value_records (v : float64) : list (option Record) :=
  [ None;
    Some {| ID := "a"; Data := Some [("value", VNull)] |};
    number_record "value" v;
    Some {| ID := "b"; Data := None |} ].

(** A collection with a NaN between two numbers. *)
Definition nan_records : list (option Record) :=
  [ number_record "value" (of_Z 1);
    number_record "value" S754_nan;
    None;
    number_record "value" (of_Z 3) ].

(** * Properties *)

(** *** Facts about the rounding pipeline of [SpecFloat] *)

Section Rounding.

Local Open Scope Z_scope.

Lemma shr_1_m (mrs : shr_record) :
  0 <= shr_m mrs -> shr_m (shr_1 mrs) = shr_m mrs / 2.
Proof.
  destruct mrs as [m r s]; simpl; intros Hm.
  destruct m as [|p|p]; [reflexivity| |lia].
  destruct p as [p|p|]; simpl shr_m.
  - rewrite Pos2Z.inj_xI.
    apply Z.div_unique with (r := 1); lia.
  - rewrite Pos2Z.inj_xO.
    apply Z.div_unique with (r := 0); lia.
  - reflexivity.
Qed.

Lemma iter_shr_1_m (p : positive) :
  forall mrs, 0 <= shr_m mrs ->
    shr_m (iter_pos shr_1 p mrs) = shr_m mrs / 2 ^ Zpos p.
Proof.
  assert (Hnn : forall q mrs, 0 <= shr_m mrs ->
             0 <= shr_m mrs / 2 ^ Zpos q).
  { intros q mrs H. apply Z.div_pos; [assumption|]. apply Z.pow_pos_nonneg; lia. }
  induction p as [p IH|p IH|]; intros mrs Hm; simpl iter_pos.
  - assert (H1 : 0 <= shr_m (shr_1 mrs)).
    { rewrite shr_1_m by assumption. apply Z.div_pos; lia. }
    assert (H2 : 0 <= shr_m (iter_pos shr_1 p (shr_1 mrs))).
    { rewrite IH by assumption. apply Hnn; assumption. }
    rewrite IH by assumption. rewrite IH by assumption.
    rewrite shr_1_m by assumption.
    rewrite !Z.div_div by (try apply Z.pow_pos_nonneg; lia).
    f_equal.
    replace (Zpos p~1) with (1 + Zpos p + Zpos p) by lia.
    rewrite !Z.pow_add_r by lia. rewrite Z.pow_1_r. ring.
  - assert (H2 : 0 <= shr_m (iter_pos shr_1 p mrs)).
    { rewrite IH by assumption. apply Hnn; assumption. }
    rewrite IH by assumption. rewrite IH by assumption.
    rewrite !Z.div_div by (try apply Z.pow_pos_nonneg; lia).
    f_equal.
    replace (Zpos p~0) with (Zpos p + Zpos p) by lia.
    rewrite !Z.pow_add_r by lia. ring.
  - rewrite shr_1_m by assumption. reflexivity.
Qed.

Lemma digits2_pos_lower (m : positive) :
  2 ^ (Zpos (digits2_pos m) - 1) <= Zpos m.
Proof.
  induction m as [m IH|m IH|]; simpl digits2_pos.
  - rewrite Pos2Z.inj_succ.
    replace (Z.succ (Zpos (digits2_pos m)) - 1)
      with (1 + (Zpos (digits2_pos m) - 1)) by lia.
    rewrite Z.pow_add_r by lia. rewrite Z.pow_1_r. lia.
  - rewrite Pos2Z.inj_succ.
    replace (Z.succ (Zpos (digits2_pos m)) - 1)
      with (1 + (Zpos (digits2_pos m) - 1)) by lia.
    rewrite Z.pow_add_r by lia. rewrite Z.pow_1_r. lia.
  - simpl. lia.
Qed.

Lemma shr_record_of_loc_m (m : Z) (l : location) :
  shr_m (shr_record_of_loc m l) = m.
Proof. destruct l as [|[| |]]; reflexivity. Qed.

(** Shifting a positive mantissa down to the target exponent keeps it
    positive: at most [digits - 1] bits are dropped. *)
Lemma shr_fexp_positive (m : positive) (e : Z) (l : location) :
  emin prec emax <= e ->
  0 < shr_m (fst (shr_fexp prec emax (Zpos m) e l)) /\
  emin prec emax <= snd (shr_fexp prec emax (Zpos m) e l).
Proof.
  intros He. unfold shr_fexp, shr, fexp. simpl Zdigits2.
  pose proof (digits2_pos_lower m) as Hd.
  set (d := Zpos (digits2_pos m)) in *.
  assert (Hd1 : 1 <= d) by (unfold d; lia).
  destruct (Z.max (d + e - prec) (emin prec emax) - e) as [|n|n] eqn:Hn;
    simpl fst; simpl snd; rewrite ?shr_record_of_loc_m; try (split; lia).
  split; [|lia].
  rewrite iter_shr_1_m by (rewrite shr_record_of_loc_m; lia).
  rewrite shr_record_of_loc_m.
  assert (Hle : Zpos n <= d - 1) by (unfold prec in *; lia).
  apply Z.div_str_pos. split; [apply Z.pow_pos_nonneg; lia|].
  apply Z.le_trans with (2 ^ (d - 1)); [|assumption].
  apply Z.pow_le_mono_r; lia.
Qed.

Lemma round_nearest_even_positive (m : Z) (l : location) :
  0 < m -> 0 < round_nearest_even m l.
Proof.
  intros Hm. destruct l as [|[| |]]; simpl; try lia.
  destruct (Z.even m); lia.
Qed.

(** Rounding a positive mantissa never produces a zero, a NaN or a sign
    change. *)
Lemma binary_round_aux_positive (m : positive) (e : Z) (l : location) :
  emin prec emax <= e ->
  positive_count (binary_round_aux prec emax false (Zpos m) e l) = true.
Proof.
  intros He. unfold binary_round_aux.
  pose proof (shr_fexp_positive m e l He) as [H1 H1e].
  destruct (shr_fexp prec emax (Zpos m) e l) as [mrs' e'].
  simpl fst in H1; simpl snd in H1e.
  pose proof (round_nearest_even_positive _ (loc_of_shr_record mrs') H1) as H2.
  destruct (round_nearest_even (shr_m mrs') (loc_of_shr_record mrs'))
    as [|m2|m2]; try lia.
  pose proof (shr_fexp_positive m2 e' loc_Exact H1e) as [H3 H3e].
  destruct (shr_fexp prec emax (Zpos m2) e' loc_Exact) as [mrs'' e''].
  simpl fst in H3; simpl snd in H3e.
  destruct (shr_m mrs'') as [|m3|m3]; try lia.
  destruct (e'' <=? emax - prec); simpl; [|reflexivity].
  apply Z.leb_le; assumption.
Qed.

Lemma binary_round_positive (m : positive) (e : Z) :
  emin prec emax <= e ->
  positive_count (binary_round prec emax false m e) = true.
Proof.
  intros He. unfold binary_round, shl_align.
  destruct (fexp prec emax (Zpos (digits2_pos m) + e) - e) as [|d|d] eqn:Hd;
    try (apply binary_round_aux_positive; assumption).
  apply binary_round_aux_positive. unfold fexp in *. lia.
Qed.

(** [counted++] on a counter that is already positive. *)
Lemma add_one_positive (c : float64) :
  positive_count c = true -> positive_count (add c one) = true.
Proof.
  destruct c as [s|s| |s m e]; simpl; try discriminate.
  - destruct s; [discriminate|reflexivity].
  - destruct s; [discriminate|]. intros He. apply Z.leb_le in He.
    unfold add, one, SFadd. cbv [cond_Zopp].
    set (ez := Z.min e (-52)).
    assert (Hez : emin prec emax <= ez) by (unfold ez, emin, prec, emax in *; lia).
    destruct (shl_align m e ez) as [m1 e1]; destruct (shl_align _ (-52) ez) as [m2 e2].
    simpl fst. simpl Z.add. apply binary_round_positive; assumption.
Qed.

(** The first [counted++], from [0.0]. *)
Lemma add_one_zero : add zero one = one.
Proof. reflexivity. Qed.

Lemma positive_count_nonzero (c : float64) :
  positive_count c = true -> eqb c zero = false.
Proof.
  destruct c as [s|s| |s m e]; simpl; try discriminate;
    destruct s; try discriminate; reflexivity.
Qed.

End Rounding.

(** *** The counter is exact *)

Section ExactCount.

Local Open Scope Z_scope.


Lemma digits2_pos_upper (m : positive) : Zpos m < 2 ^ Zpos (digits2_pos m).
Proof.
  induction m as [m IH|m IH|]; simpl digits2_pos.
  - rewrite Pos2Z.inj_succ, Z.pow_succ_r by lia. lia.
  - rewrite Pos2Z.inj_succ, Z.pow_succ_r by lia. lia.
  - simpl. lia.
Qed.

Lemma digits2_pos_unique (m : positive) (d : Z) :
  2 ^ (d - 1) <= Zpos m < 2 ^ d -> Zpos (digits2_pos m) = d.
Proof.
  intros [Hlo Hhi].
  pose proof (digits2_pos_lower m) as Hl. pose proof (digits2_pos_upper m) as Hu.
  assert (Hd : 0 < d).
  { destruct (Z_lt_le_dec 0 d) as [H|H]; [exact H|].
    assert (2 ^ d <= 2 ^ 0) by (apply Z.pow_le_mono_r; lia).
    simpl in *. lia. }
  assert (H1 : d - 1 < Zpos (digits2_pos m)).
  { apply (Z.pow_lt_mono_r_iff 2); lia. }
  assert (H2 : Zpos (digits2_pos m) - 1 < d).
  { apply (Z.pow_lt_mono_r_iff 2); lia. }
  lia.
Qed.

Lemma iter_xO_value (m d : positive) :
  Zpos (Pos.iter xO m d) = Zpos m * 2 ^ Zpos d.
Proof.
  rewrite (Pos.iter_swap_gen _ _ Zpos xO (Z.mul 2)) by reflexivity.
  change (Pos.iter (Z.mul 2) (Zpos m) d) with (Z.shiftl (Zpos m) (Zpos d)).
  apply Z.shiftl_mul_pow2. lia.
Qed.

Lemma shl_align_value (m : positive) (e e' : Z) :
  e' <= e -> Zpos (fst (shl_align m e e')) = Zpos m * 2 ^ (e - e').
Proof.
  intros Hle. unfold shl_align.
  destruct (e' - e) as [|d|d] eqn:Hd; simpl fst.
  - replace (e - e') with 0 by lia. lia.
  - lia.
  - rewrite iter_xO_value. f_equal. f_equal. lia.
Qed.

Lemma shr_1_double (q : Z) :
  0 < q ->
  shr_1 {| shr_m := 2 * q; shr_r := false; shr_s := false |} =
  {| shr_m := q; shr_r := false; shr_s := false |}.
Proof. destruct q; simpl; try lia. reflexivity. Qed.

Lemma iter_shr_1_exact (p : positive) :
  forall q, 0 < q ->
    iter_pos shr_1 p {| shr_m := q * 2 ^ Zpos p; shr_r := false; shr_s := false |} =
    {| shr_m := q; shr_r := false; shr_s := false |}.
Proof.
  induction p as [p IH|p IH|]; intros q Hq; cbn [iter_pos].
  - replace (q * 2 ^ Zpos p~1) with (2 * ((q * 2 ^ Zpos p) * 2 ^ Zpos p)).
    + assert (0 < 2 ^ Zpos p) by (apply Z.pow_pos_nonneg; lia).
      rewrite shr_1_double by nia. rewrite IH by nia. apply IH. exact Hq.
    + replace (Zpos p~1) with (1 + Zpos p + Zpos p) by lia.
      rewrite !Z.pow_add_r by lia. rewrite Z.pow_1_r. ring.
  - replace (q * 2 ^ Zpos p~0) with ((q * 2 ^ Zpos p) * 2 ^ Zpos p).
    + assert (0 < 2 ^ Zpos p) by (apply Z.pow_pos_nonneg; lia).
      rewrite IH by nia. apply IH. exact Hq.
    + replace (Zpos p~0) with (Zpos p + Zpos p) by lia.
      rewrite !Z.pow_add_r by lia. ring.
  - rewrite Z.pow_1_r, Z.mul_comm. apply shr_1_double. exact Hq.
Qed.

(** The second half of [binary_round_aux] on a mantissa of full length. *)
Lemma round_finish (s : bool) (m : positive) (e : Z) :
  Zpos (digits2_pos m) = prec -> emin prec emax <= e <= emax - prec ->
  (let '(mrs, e') := shr_fexp prec emax (Zpos m) e loc_Exact in
   match shr_m mrs with
   | Z0 => S754_zero s
   | Zpos m' => if e' <=? emax - prec then S754_finite s m' e' else S754_infinity s
   | Zneg _ => S754_nan
   end) = S754_finite s m e.
Proof.
  intros Hd He. unfold shr_fexp, fexp. simpl Zdigits2. rewrite Hd.
  replace (Z.max (prec + e - prec) (emin prec emax) - e) with 0 by lia.
  assert (Hle : (e <=? emax - prec) = true) by (apply Z.leb_le; lia).
  cbn [shr shr_record_of_loc shr_m]. rewrite Hle. reflexivity.
Qed.

Lemma binary_round_aux_exact (s : bool) (m : positive) (e : Z) :
  Zpos (digits2_pos m) = prec -> emin prec emax <= e <= emax - prec ->
  binary_round_aux prec emax s (Zpos m) e loc_Exact = S754_finite s m e.
Proof.
  intros Hd He. unfold binary_round_aux.
  assert (H1 : shr_fexp prec emax (Zpos m) e loc_Exact =
               ({| shr_m := Zpos m; shr_r := false; shr_s := false |}, e)).
  { unfold shr_fexp, fexp. simpl Zdigits2. rewrite Hd.
    replace (Z.max (prec + e - prec) (emin prec emax) - e) with 0 by lia.
    reflexivity. }
  rewrite H1. simpl shr_m. simpl loc_of_shr_record. simpl round_nearest_even.
  apply round_finish; assumption.
Qed.


Lemma scaled_full_length (N m : positive) :
  Zpos (digits2_pos N) <= prec ->
  Zpos m = Zpos N * 2 ^ (prec - Zpos (digits2_pos N)) ->
  Zpos (digits2_pos m) = prec.
Proof.
  intros Hd Hm. apply digits2_pos_unique. rewrite Hm.
  pose proof (digits2_pos_lower N) as Hl. pose proof (digits2_pos_upper N) as Hu.
  set (d := Zpos (digits2_pos N)) in *.
  assert (Hd1 : 1 <= d) by (unfold d; lia).
  assert (Hp : 0 < 2 ^ (prec - d)) by (apply Z.pow_pos_nonneg; lia).
  replace (2 ^ (prec - 1)) with (2 ^ (d - 1) * 2 ^ (prec - d))
    by (rewrite <- Z.pow_add_r by lia; f_equal; lia).
  replace (2 ^ prec) with (2 ^ d * 2 ^ (prec - d))
    by (rewrite <- Z.pow_add_r by lia; f_equal; lia).
  split; nia.
Qed.

(** The float64 of a positive integer of at most 53 bits: the integer
    shifted to a full-length mantissa. *)
Lemma binary_round_integer (N : positive) :
  Zpos (digits2_pos N) <= prec ->
  exists m,
    Zpos m = Zpos N * 2 ^ (prec - Zpos (digits2_pos N)) /\
    binary_round prec emax false N 0 =
    S754_finite false m (Zpos (digits2_pos N) - prec).
Proof.
  intros Hd. unfold binary_round, shl_align.
  set (d := Zpos (digits2_pos N)) in *.
  assert (Hd1 : 1 <= d) by (unfold d; lia).
  replace (fexp prec emax (d + 0)) with (d - prec)
    by (unfold fexp, emin, prec, emax in *; lia).
  rewrite Z.sub_0_r.
  destruct (d - prec) as [|k|k] eqn:Hk; try lia.
  - exists N. split.
    + replace (prec - d) with 0 by lia. lia.
    + apply binary_round_aux_exact; unfold emin, prec, emax in *; fold d; lia.
  - exists (Pos.iter xO N k).
    assert (Hv : Zpos (Pos.iter xO N k) = Zpos N * 2 ^ (prec - d)).
    { rewrite iter_xO_value. f_equal. f_equal. lia. }
    split; [exact Hv|].
    apply binary_round_aux_exact.
    + apply (scaled_full_length N); assumption.
    + unfold emin, prec, emax in *. lia.
Qed.

(** The same integer held as [N * 2^52] at exponent [-52], the form in which
    the sum [n + 1.0] reaches the rounding. *)
Lemma binary_round_scaled (P N : positive) :
  Zpos P = Zpos N * 2 ^ 52 ->
  2 <= Zpos (digits2_pos N) <= prec ->
  exists m,
    Zpos m = Zpos N * 2 ^ (prec - Zpos (digits2_pos N)) /\
    binary_round prec emax false P (-52) =
    S754_finite false m (Zpos (digits2_pos N) - prec).
Proof.
  intros HP Hd.
  pose proof (digits2_pos_lower N) as Hl. pose proof (digits2_pos_upper N) as Hu.
  set (d := Zpos (digits2_pos N)) in *.
  assert (HdP : Zpos (digits2_pos P) = d + 52).
  { apply digits2_pos_unique. rewrite HP.
    replace (d + 52 - 1) with (d - 1 + 52) by lia.
    rewrite !Z.pow_add_r by lia. split; nia. }
  assert (Hpos : 0 < Zpos N * 2 ^ (prec - d)).
  { apply Z.mul_pos_pos; [lia|]. apply Z.pow_pos_nonneg; lia. }
  destruct (Zpos N * 2 ^ (prec - d)) as [|m|m] eqn:Hm; try lia.
  exists m. split; [reflexivity|].
  assert (Hfull : Zpos (digits2_pos m) = prec).
  { apply (scaled_full_length N); [fold d; lia|]. fold d. rewrite Hm. reflexivity. }
  unfold binary_round, shl_align. rewrite HdP.
  replace (fexp prec emax (d + 52 + -52) - -52) with (d - 1)
    by (unfold fexp, emin, prec, emax in *; lia).
  destruct (d - 1) as [|k|k] eqn:Hk; try lia.
  unfold binary_round_aux.
  assert (H1 : shr_fexp prec emax (Zpos P) (-52) loc_Exact =
               ({| shr_m := Zpos m; shr_r := false; shr_s := false |}, d - prec)).
  { unfold shr_fexp. simpl Zdigits2. rewrite HdP.
    replace (fexp prec emax (d + 52 + -52) - -52) with (Zpos k)
      by (unfold fexp, emin, prec, emax in *; lia).
    unfold shr. cbn [shr_record_of_loc]. f_equal; [|unfold prec; lia].
    replace (Zpos P) with (Zpos m * 2 ^ Zpos k).
    - apply iter_shr_1_exact. lia.
    - rewrite HP, <- Hm, <- Z.mul_assoc, <- Z.pow_add_r by (unfold prec in *; lia).
      f_equal. f_equal. unfold prec. lia. }
  rewrite H1. cbn [shr_m loc_of_shr_record round_nearest_even].
  apply round_finish; [exact Hfull|unfold emin, prec, emax in *; lia].
Qed.

Lemma finite_by_value (m m' : positive) (e : Z) (M : Z) :
  Zpos m = M -> Zpos m' = M -> S754_finite false m e = S754_finite false m' e.
Proof. intros H H'. f_equal. rewrite <- H' in H. injection H as ->. reflexivity. Qed.

(** [counted++] is exact below 2^53. *)
Lemma add_one_exact (n : Z) :
  0 <= n < 2 ^ prec -> F64.add (of_Z n) one = of_Z (n + 1).
Proof.
  intros Hn.
  destruct (Z.eq_dec n 0) as [-> | Hn0]; [reflexivity|].
  destruct (Z.eq_dec n (2 ^ prec - 1)) as [-> | Hmax]; [vm_compute; reflexivity|].
  destruct n as [|N|N]; try lia.
  assert (HN1 : exists N1, Zpos N1 = Zpos N + 1) by (exists (N + 1)%positive; lia).
  destruct HN1 as [N1 HN1]. rewrite <- HN1.
  assert (HdN : Zpos (digits2_pos N) <= prec).
  { pose proof (digits2_pos_lower N).
    destruct (Z_le_gt_dec (Zpos (digits2_pos N)) prec) as [H'|H']; [exact H'|].
    assert (2 ^ prec <= 2 ^ (Zpos (digits2_pos N) - 1)) by (apply Z.pow_le_mono_r; lia).
    lia. }
  assert (HdN1 : 2 <= Zpos (digits2_pos N1) <= prec).
  { pose proof (digits2_pos_lower N1). pose proof (digits2_pos_upper N1).
    split.
    - destruct (Z_le_gt_dec 2 (Zpos (digits2_pos N1))) as [H'|H']; [exact H'|].
      assert (Zpos (digits2_pos N1) = 1) by lia.
      replace (Zpos (digits2_pos N1)) with 1 in *. simpl in *. lia.
    - destruct (Z_le_gt_dec (Zpos (digits2_pos N1)) prec) as [H'|H']; [exact H'|].
      assert (2 ^ prec <= 2 ^ (Zpos (digits2_pos N1) - 1)) by (apply Z.pow_le_mono_r; lia).
      lia. }
  unfold of_Z, binary_normalize.
  destruct (binary_round_integer N HdN) as (m & Hm & ->).
  destruct (binary_round_integer N1 (proj2 HdN1)) as (m1 & Hm1 & ->).
  set (d := Zpos (digits2_pos N)) in *.
  assert (Hd1 : 1 <= d) by (unfold d; lia).
  unfold F64.add, one, SFadd. cbv [cond_Zopp].
  replace (Z.min (d - prec) (-52)) with (-52) by (unfold prec in *; lia).
  rewrite (shl_align_value m (d - prec) (-52)) by (unfold prec in *; lia).
  rewrite (shl_align_value 4503599627370496 (-52) (-52)) by lia.
  assert (Hsum : exists P, Zpos P = Zpos N1 * 2 ^ 52 /\
             Zpos m * 2 ^ (d - prec - -52) + 4503599627370496 * 2 ^ (-52 - -52) = Zpos P).
  { assert (Hv : Zpos m * 2 ^ (d - prec - -52) = Zpos N * 2 ^ 52).
    { rewrite Hm, <- Z.mul_assoc, <- Z.pow_add_r by (unfold prec in *; lia).
      f_equal. f_equal. unfold prec. lia. }
    rewrite Hv. replace (-52 - -52) with 0 by lia.
    assert (Hp : 0 < Zpos N1 * 2 ^ 52) by lia.
    destruct (Zpos N1 * 2 ^ 52) as [|P|P] eqn:HP; try lia.
    exists P. split; [reflexivity|]. rewrite <- HP, HN1. lia. }
  destruct Hsum as (P & HP & ->).
  unfold binary_normalize.
  destruct (binary_round_scaled P N1 HP HdN1) as (m2 & Hm2 & ->).
  apply (finite_by_value _ _ _ _ Hm2 Hm1).
Qed.


(** The counter after any number of increments: the float64 of that number,
    and 2^53 from there on, where adding 1.0 is absorbed by the rounding. *)
Lemma count_from (vals : list float64) :
  forall k, 0 <= k <= 2 ^ 53 ->
    fold_left (fun c _ => F64.add c one) vals (of_Z k) =
    of_Z (Z.min (k + Z.of_nat (List.length vals)) (2 ^ 53)).
Proof.
  induction vals as [|v vals IH]; intros k Hk.
  - simpl. f_equal. lia.
  - cbn [fold_left List.length]. destruct (Z.eq_dec k (2 ^ 53)) as [-> | Hlt].
    + replace (F64.add (of_Z (2 ^ 53)) one) with (of_Z (2 ^ 53))
        by (vm_compute; reflexivity).
      rewrite IH by lia. f_equal. lia.
    + rewrite add_one_exact by (unfold prec; lia).
      rewrite IH by lia. f_equal. lia.
Qed.

Lemma fcount_value (vals : list float64) :
  fcount vals = of_Z (Z.min (Z.of_nat (List.length vals)) (2 ^ 53)).
Proof.
  unfold fcount. change zero with (of_Z 0). rewrite count_from by lia.
  reflexivity.
Qed.

End ExactCount.

(** *** The two loops *)

Section Loops.

Variable path : string.

Lemma count_step_positive (c : float64) :
  c = zero \/ positive_count c = true -> positive_count (F64.add c one) = true.
Proof.
  intros [-> | H]; [reflexivity | apply add_one_positive; assumption].
Qed.

Lemma count_positive (vals : list float64) :
  forall c, c = zero \/ positive_count c = true -> vals <> [] ->
    positive_count (fold_left (fun c _ => F64.add c one) vals c) = true.
Proof.
  induction vals as [|v vals IH]; intros c Hc Hne; [congruence|].
  simpl. pose proof (count_step_positive c Hc) as Hs.
  destruct vals as [|w vals]; [exact Hs|].
  apply IH; [right; exact Hs | discriminate].
Qed.

Lemma fcount_nonzero (vals : list float64) :
  vals <> [] -> F64.eqb (fcount vals) zero = false.
Proof.
  intros Hne. apply positive_count_nonzero.
  apply count_positive; [left; reflexivity | assumption].
Qed.

Lemma average_loop_no_error (records : list (option Record)) :
  no_error records path ->
  forall sum counted,
    average_loop records path sum counted =
    (if F64.eqb (fold_left (fun c _ => F64.add c one) (present_values records path) counted) zero
     then (None, None)
     else (Some (F64.div (fold_left F64.add (present_values records path) sum)
                         (fold_left (fun c _ => F64.add c one)
                                    (present_values records path) counted)), None)).
Proof.
  induction 1 as [|r records Hr _ IH]; intros sum counted; [reflexivity|].
  simpl. destruct (ExtractNumber r path) as [number err]. simpl in Hr; subst err.
  destruct number as [n|]; simpl; apply IH.
Qed.

Lemma average_loop_error (pre post : list (option Record)) (r : option Record) (e : error) :
  no_error pre path -> snd (ExtractNumber r path) = Some e ->
  forall sum counted,
    average_loop (pre ++ r :: post) path sum counted = (None, Some e).
Proof.
  intros Hpre Hr. induction Hpre as [|r0 pre Hr0 _ IH]; intros sum counted; simpl.
  - destruct (ExtractNumber r path) as [number err]. simpl in Hr; subst err. reflexivity.
  - destruct (ExtractNumber r0 path) as [number err]. simpl in Hr0; subst err.
    destruct number as [n|]; apply IH.
Qed.

Lemma average_loop_returns (records : list (option Record)) :
  forall sum counted avg,
    average_loop records path sum counted = (avg, None) -> no_error records path.
Proof.
  induction records as [|r records IH]; intros sum counted avg H; [constructor|].
  simpl in H. destruct (ExtractNumber r path) as [number err] eqn:Hr.
  destruct err as [e|]; [discriminate|].
  constructor; [rewrite Hr; reflexivity|].
  destruct number as [n|]; eapply IH; exact H.
Qed.

Lemma deviation_loop_no_error (records : list (option Record)) (a : float64) :
  no_error records path ->
  forall acc counted,
    deviation_loop records path (Some a) acc counted =
    Returns
      (if F64.eqb (fold_left (fun c _ => F64.add c one) (present_values records path) counted) zero
       then (None, None)
       else (Some (F64.sqrt (F64.div
               (fold_left (fun acc v => F64.add acc (F64.mul (F64.sub v a) (F64.sub v a)))
                          (present_values records path) acc)
               (fold_left (fun c _ => F64.add c one)
                          (present_values records path) counted))), None)).
Proof.
  induction 1 as [|r records Hr _ IH]; intros acc counted.
  - simpl. destruct (F64.eqb counted zero); reflexivity.
  - simpl. destruct (ExtractNumber r path) as [number err]. simpl in Hr; subst err.
    destruct number as [n|]; simpl; apply IH.
Qed.

Lemma deviation_loop_nothing_present (records : list (option Record)) :
  Forall (fun r => ExtractNumber r path = (None, None)) records ->
  forall avg acc, deviation_loop records path avg acc zero = Returns (None, None).
Proof.
  induction 1 as [|r records Hr _ IH]; intros avg acc; [reflexivity|].
  simpl. rewrite Hr. apply IH.
Qed.

Lemma nothing_present (records : list (option Record)) :
  no_error records path -> present_values records path = [] ->
  Forall (fun r => ExtractNumber r path = (None, None)) records.
Proof.
  induction 1 as [|r records Hr _ IH]; intros Hp; [constructor|].
  unfold present_values in Hp; simpl in Hp.
  apply app_eq_nil in Hp. destruct Hp as [Hh Ht].
  constructor; [|apply IH; exact Ht].
  destruct (ExtractNumber r path) as [number err]. simpl in *. subst err.
  destruct number; [discriminate|reflexivity].
Qed.

Lemma present_value_in (records : list (option Record)) (r : option Record) (v : float64) :
  In r records -> fst (ExtractNumber r path) = Some v ->
  present_values records path <> [].
Proof.
  intros Hin Hv Hnil. unfold present_values in Hnil.
  assert (Hv' : In v (flat_map (fun r => match fst (ExtractNumber r path) with
                                         | Some n => [n]
                                         | None => []
                                         end) records)).
  { apply in_flat_map. exists r. split; [assumption|]. rewrite Hv. left; reflexivity. }
  rewrite Hnil in Hv'. exact Hv'.
Qed.

(** [Average] on a collection without coercion error. *)
Lemma Average_no_error (records : list (option Record)) :
  no_error records path ->
  Average records path =
  (match present_values records path with
   | [] => None
   | _ :: _ => Some (mean (present_values records path))
   end, None).
Proof.
  intros Hok. destruct records as [|r records]; [reflexivity|].
  unfold Average. rewrite (average_loop_no_error _ Hok).
  fold (fcount (present_values (r :: records) path)).
  fold (fsum (present_values (r :: records) path)).
  destruct (present_values (r :: records) path) as [|v vals] eqn:Hp; [reflexivity|].
  rewrite fcount_nonzero by discriminate. reflexivity.
Qed.

Lemma Average_returns (records : list (option Record)) (avg : option float64) :
  Average records path = (avg, None) -> no_error records path.
Proof.
  destruct records as [|r records]; [constructor|].
  unfold Average. apply average_loop_returns.
Qed.

End Loops.

(** ** Aggregators: the claims *)

Lemma no_error_mixed_records : no_error mixed_records "value".
Proof. repeat constructor. Qed.

(** C1.  On a collection in which no record makes Number Coercion fail,
    [Average] returns no error and, as its value, the float64 sum of the
    present values divided by their count, both accumulated in iteration
    order; records whose value is absent are left out of the sum and of the
    count.  With no present value at all, and in particular on the empty
    collection, the value is absent.  The count is the float64 of the number
    of present values, up to 2^53 where [counted++] stops changing it. *)
Theorem Average_mean_of_present_values :
  forall (records : list (option Record)) (path : string),
    no_error records path ->
    Average records path =
    (match present_values records path with
     | [] => None
     | _ :: _ => Some (F64.div (fsum (present_values records path))
                               (fcount (present_values records path)))
     end, None) /\
    fcount (present_values records path) =
    of_Z (Z.min (Z.of_nat (List.length (present_values records path))) (2 ^ 53)).
Proof.
  intros records path Hok.
  split; [exact (Average_no_error path records Hok) | apply fcount_value].
Qed.

Lemma Average_mean_of_present_values_witness :
  no_error mixed_records "value" /\
  present_values mixed_records "value" = [of_Z 10; of_Z 20] /\
  Average mixed_records "value" = (Some (of_Z 15), None).
Proof.
  split; [exact no_error_mixed_records|]. split; [reflexivity|].
  rewrite (proj1 (Average_mean_of_present_values mixed_records "value"
                    no_error_mixed_records)).
  reflexivity.
Defined.

Lemma held_values (path : string) (vals : list float64) :
  forall records,
    map (fun r => ExtractNumber r path) records = map (fun v => (Some v, None)) vals ->
    no_error records path /\ present_values records path = vals.
Proof.
  induction vals as [|v vals IH]; intros [|r records] H; try discriminate.
  - split; [constructor|reflexivity].
  - simpl in H. injection H as Hr Hrest. destruct (IH _ Hrest) as [Hok Hp].
    split; [constructor; [rewrite Hr; reflexivity|exact Hok]|].
    unfold present_values in *. simpl. rewrite Hr, Hp. reflexivity.
Qed.

(** C2.  On a collection without coercion error and with at least one present
    value, [StandardDeviation] returns the square root of the sum of the
    squared deviations of the present values from their mean, divided by the
    count of present values (the population formula: the divisor is the count,
    not the count minus one).  For any eight records that hold 2, 4, 4, 4, 5,
    5, 7, 9 at the path, the result is exactly 2.0. *)
Theorem StandardDeviation_population_formula :
  (forall (records : list (option Record)) (path : string),
      no_error records path ->
      present_values records path <> [] ->
      StandardDeviation records path =
      Returns (Some (F64.sqrt (F64.div
                 (squared_deviations (mean (present_values records path))
                                     (present_values records path))
                 (fcount (present_values records path)))), None)) /\
  (forall (records : list (option Record)) (path : string),
      map (fun r => ExtractNumber r path) records =
      map (fun v => (Some v, None)) eight_values ->
      StandardDeviation records path = Returns (Some (of_Z 2), None)).
Proof.
  assert (General : forall records path,
             no_error records path -> present_values records path <> [] ->
             StandardDeviation records path =
             Returns (Some (population_sd (present_values records path)), None)).
  { intros records path Hok Hne.
    destruct records as [|r records]; [exfalso; apply Hne; reflexivity|].
    unfold StandardDeviation. rewrite (Average_no_error path _ Hok).
    destruct (present_values (r :: records) path) as [|v vals] eqn:Hp; [congruence|].
    rewrite (deviation_loop_no_error path _ (mean (v :: vals)) Hok). rewrite Hp.
    fold (fcount (v :: vals)). rewrite fcount_nonzero by discriminate.
    reflexivity. }
  split; [exact General|].
  intros records path H. destruct (held_values path eight_values records H) as [Hok Hp].
  rewrite (General records path Hok) by (rewrite Hp; discriminate).
  rewrite Hp. vm_compute. reflexivity.
Qed.

Lemma StandardDeviation_population_formula_witness :
  StandardDeviation (map (number_record "value") eight_values) "value" =
  Returns (Some (of_Z 2), None).
Proof.
  apply (proj2 StandardDeviation_population_formula). reflexivity.
Defined.

(** C4.  When some record makes Number Coercion fail, [Average] and
    [StandardDeviation] both return the error of the first such record in
    iteration order, together with an absent value: whatever was accumulated
    before it, and whatever follows it, is not reported. *)
Theorem first_error_aborts_aggregation :
  forall (pre post : list (option Record)) (r : option Record)
         (path : string) (e : error),
    no_error pre path ->
    snd (ExtractNumber r path) = Some e ->
    Average (pre ++ r :: post) path = (None, Some e) /\
    StandardDeviation (pre ++ r :: post) path = Returns (None, Some e).
Proof.
  intros pre post r path e Hpre Hr.
  assert (HA : Average (pre ++ r :: post) path = (None, Some e)).
  { unfold Average. destruct (pre ++ r :: post)%list eqn:Hl.
    - destruct pre; discriminate.
    - rewrite <- Hl. apply average_loop_error; assumption. }
  split; [exact HA|].
  unfold StandardDeviation. rewrite HA.
  destruct (pre ++ r :: post)%list eqn:Hl; [destruct pre; discriminate|reflexivity].
Qed.

Lemma first_error_aborts_aggregation_witness :
  Average faulty_records "value" = (None, Some (NotNumeric (VBool true))) /\
  StandardDeviation faulty_records "value" =
  Returns (None, Some (NotNumeric (VBool true))).
Proof.
  apply (first_error_aborts_aggregation
           [number_record "value" (of_Z 1); None]
           [number_record "value" (of_Z 2);
            Some {| ID := "y"; Data := Some [("value", VSequence [])] |}]
           (Some {| ID := "x"; Data := Some [("value", VBool true)] |})
           "value" (NotNumeric (VBool true))).
  - repeat constructor.
  - reflexivity.
Defined.

(** C8.  On a non-empty collection for which [Average] returns an absent
    value and no error, [StandardDeviation] returns an absent value and no
    error as well.  The second loop has its own guard: whatever average it is
    given, it returns an absent value when no record holds a present value. *)
Theorem absent_average_absent_deviation :
  (forall (records : list (option Record)) (path : string),
      records <> [] ->
      Average records path = (None, None) ->
      StandardDeviation records path = Returns (None, None)) /\
  (forall (records : list (option Record)) (path : string) (avg : option float64),
      Forall (fun r => ExtractNumber r path = (None, None)) records ->
      deviation_loop records path avg zero zero = Returns (None, None)).
Proof.
  split.
  - intros records path Hne HA.
    pose proof (Average_returns path records None HA) as Hok.
    pose proof (Average_no_error path records Hok) as HA'.
    rewrite HA in HA'.
    assert (Hp : present_values records path = []).
    { destruct (present_values records path); [reflexivity|discriminate]. }
    unfold StandardDeviation. rewrite HA.
    destruct records as [|r records]; [congruence|].
    apply deviation_loop_nothing_present. apply nothing_present; assumption.
  - intros records path avg H. apply deviation_loop_nothing_present; exact H.
Qed.

Lemma absent_average_absent_deviation_witness :
  StandardDeviation (firstn 4 mixed_records) "value" = Returns (None, None) /\
  deviation_loop (firstn 4 mixed_records) "value" (Some (of_Z 7)) zero zero =
  Returns (None, None).
Proof.
  split.
  - apply (proj1 absent_average_absent_deviation); [discriminate|reflexivity].
  - apply (proj2 absent_average_absent_deviation). repeat constructor.
Defined.

(** C10.  [StandardDeviation] never dereferences a nil average: it returns on
    every collection and path, and whenever [Average] returned without error
    and some record of the collection holds a present value (so that the
    second loop evaluates [*avg]), the average is present. *)
Theorem StandardDeviation_never_panics :
  forall (records : list (option Record)) (path : string),
    StandardDeviation records path <> Panics /\
    (forall (avg : option float64) (r : option Record) (v : float64),
        Average records path = (avg, None) ->
        In r records ->
        fst (ExtractNumber r path) = Some v ->
        avg <> None).
Proof.
  intros records path. split.
  - destruct records as [|r records]; [discriminate|].
    unfold StandardDeviation.
    destruct (Average (r :: records) path) as [avg err] eqn:HA.
    destruct err as [e|]; [discriminate|].
    pose proof (Average_returns path _ avg HA) as Hok.
    rewrite (Average_no_error path _ Hok) in HA.
    destruct (present_values (r :: records) path) as [|v vals] eqn:Hp;
      injection HA as <-.
    + rewrite (deviation_loop_nothing_present path (r :: records)); [discriminate|].
      apply nothing_present; assumption.
    + rewrite (deviation_loop_no_error path _ _ Hok). discriminate.
  - intros avg r v HA Hin Hv.
    pose proof (Average_returns path _ avg HA) as Hok.
    rewrite (Average_no_error path _ Hok) in HA.
    pose proof (present_value_in path records r v Hin Hv) as Hne.
    destruct (present_values records path); [congruence|].
    injection HA as <-. discriminate.
Qed.

Lemma StandardDeviation_never_panics_witness :
  StandardDeviation mixed_records "value" <> Panics /\
  Some (of_Z 15) <> None.
Proof.
  pose proof (StandardDeviation_never_panics mixed_records "value") as [H1 H2].
  split; [exact H1|].
  apply (H2 (Some (of_Z 15)) (number_record "value" (of_Z 10)) (of_Z 10)).
  - reflexivity.
  - simpl. tauto.
  - reflexivity.
Defined.

(** ** Path Resolver: the claims *)

Lemma parse_digits_all_digits (s : string) :
  forall acc, parse_digits s acc = None <-> all_digits s = false.
Proof.
  induction s as [|c rest IH]; intros acc; simpl.
  - split; discriminate.
  - destruct (is_digit c); simpl; [apply IH|split; reflexivity].
Qed.

Lemma parse_index_is_index (seg : string) :
  parse_index seg = None <-> is_index seg = false.
Proof.
  destruct seg as [|c rest]; [split; reflexivity|].
  unfold parse_index, is_index. simpl negb. rewrite andb_true_l.
  apply parse_digits_all_digits.
Qed.

(** The records and paths of [TestExtract], with the values the test
    expects. *)
Lemma TestExtract_cases :
  map (Extract extract_test_record)
      [ "value"; "nested.value"; "nested.super.value"; "int"; "list";
        "list.0"; "list.1"; "list.2"; "nonexistent"; "emptyString"; "nullValue";
        "non.existent"; "nested.nonexistent"; "nested.value.nonexistent";
        "int.nonexistent"; "list.a"; "list.4"; "list.-1" ] =
  [ Some (VString "string"); Some (VString "nested string value");
    Some (VString "Super Nested String Value"); Some (VNumber (of_Z 123));
    Some abc_list;
    Some (VString "abc"); Some (VString "DEF"); Some (VString "geh"); None;
    Some (VString EmptyString); Some VNull;
    None; None; None; None; None; None; None ] /\
  Extract (Some {| ID := EmptyString; Data := None |}) "nil as input" = None /\
  Extract None "nil record as input" = None.
Proof. repeat split; reflexivity. Qed.

Lemma split_path_nonempty (path : string) : split_path path <> [].
Proof.
  destruct path as [|c rest]; simpl; [discriminate|].
  destruct (Ascii.eqb c "."); [discriminate|].
  destruct (split_path rest); discriminate.
Qed.

(** A dot between two paths joins their segments. *)
Lemma split_path_app (path rest : string) :
  split_path (path ++ "." ++ rest) = (split_path path ++ split_path rest)%list.
Proof.
  induction path as [|c path IH]; [reflexivity|].
  simpl in *. rewrite IH. destruct (Ascii.eqb c "."); [reflexivity|].
  pose proof (split_path_nonempty path) as Hne.
  destruct (split_path path); [congruence|reflexivity].
Qed.

(** Walking a chain of segments is walking its first part, then the rest. *)
Lemma resolve_app (segments rest : list string) :
  forall v, resolve v (segments ++ rest) =
            match resolve v segments with
            | Some child => resolve child rest
            | None => None
            end.
Proof.
  induction segments as [|seg segments IH]; intros v; [reflexivity|].
  cbn [app resolve]. destruct v; try reflexivity.
  - destruct (parse_index seg) as [i|]; [|reflexivity].
    destruct (i <? N.of_nat (List.length l))%N; [|reflexivity].
    destruct (nth_error l (N.to_nat i)); [apply IH|reflexivity].
  - destruct (lookup seg m); [apply IH|reflexivity].
Qed.

Lemma Extract_descend (record : option Record) (path rest : string) :
  Extract record (path ++ "." ++ rest) =
  match Extract record path with
  | Some v => resolve v (split_path rest)
  | None => None
  end.
Proof.
  unfold Extract. destruct record as [r|]; [|reflexivity].
  destruct (Data r); [|reflexivity].
  rewrite split_path_app. apply resolve_app.
Qed.

Lemma resolve_first_segment (v : Value) (rest : string) :
  resolve v (split_path rest) =
  resolve v (hd EmptyString (split_path rest) :: tl (split_path rest)).
Proof.
  pose proof (split_path_nonempty rest) as Hne.
  destruct (split_path rest); [congruence|reflexivity].
Qed.

(** C5.  Path resolution has no error outcome, only a value or NotFound.  An
    absent record and an absent data tree give NotFound, and so does a path
    whose first segment is not a key of the root mapping.  Below a prefix of
    the path, the next segment gives NotFound when the prefix is itself
    NotFound, when it resolves to a mapping that lacks the segment as a key,
    when it resolves to a sequence and the segment is not a run of decimal
    digits (such as [-1] or [a]) or is an index at or beyond the length, and
    when it resolves to a scalar. *)
Theorem Extract_degrades_to_not_found :
  (forall path, Extract None path = None) /\
  (forall id path, Extract (Some {| ID := id; Data := None |}) path = None) /\
  (forall id m path,
      lookup (hd EmptyString (split_path path)) m = None ->
      Extract (Some {| ID := id; Data := Some m |}) path = None) /\
  (forall record path rest,
      Extract record path = None ->
      Extract record (path ++ "." ++ rest) = None) /\
  (forall record path rest m,
      Extract record path = Some (VMapping m) ->
      lookup (hd EmptyString (split_path rest)) m = None ->
      Extract record (path ++ "." ++ rest) = None) /\
  (forall record path rest l,
      Extract record path = Some (VSequence l) ->
      is_index (hd EmptyString (split_path rest)) = false ->
      Extract record (path ++ "." ++ rest) = None) /\
  (forall record path rest l i,
      Extract record path = Some (VSequence l) ->
      parse_index (hd EmptyString (split_path rest)) = Some i ->
      (N.of_nat (List.length l) <= i)%N ->
      Extract record (path ++ "." ++ rest) = None) /\
  (forall record path rest v,
      Extract record path = Some v -> is_scalar v = true ->
      Extract record (path ++ "." ++ rest) = None) /\
  is_index "-1" = false /\ is_index "a" = false.
Proof.
  split; [reflexivity|]. split; [reflexivity|].
  split.
  { intros id m path H. unfold Extract. cbn [Data].
    rewrite resolve_first_segment. cbn [resolve]. rewrite H. reflexivity. }
  split.
  { intros record path rest H. rewrite Extract_descend, H. reflexivity. }
  split.
  { intros record path rest m H Hk. rewrite Extract_descend, H.
    rewrite resolve_first_segment. cbn [resolve]. rewrite Hk. reflexivity. }
  split.
  { intros record path rest l H Hi. rewrite Extract_descend, H.
    rewrite resolve_first_segment. cbn [resolve].
    apply parse_index_is_index in Hi. rewrite Hi. reflexivity. }
  split.
  { intros record path rest l i H Hi Hlen. rewrite Extract_descend, H.
    rewrite resolve_first_segment. cbn [resolve]. rewrite Hi.
    apply N.ltb_ge in Hlen. rewrite Hlen. reflexivity. }
  split.
  { intros record path rest v H Hs. rewrite Extract_descend, H.
    rewrite resolve_first_segment. destruct v; try discriminate; reflexivity. }
  split; reflexivity.
Qed.

Lemma Extract_degrades_to_not_found_witness :
  Extract extract_test_record "nonexistent" = None /\
  Extract extract_test_record "non.existent" = None /\
  Extract extract_test_record "nested.nonexistent" = None /\
  Extract extract_test_record "list.-1" = None /\
  Extract extract_test_record "list.4" = None /\
  Extract extract_test_record "int.nonexistent" = None.
Proof.
  destruct Extract_degrades_to_not_found
    as (_ & _ & Hroot & Hshort & Hkey & Hseg & Hrange & Hscalar & _).
  split; [apply Hroot; reflexivity|].
  split; [apply (Hshort extract_test_record "non" "existent"); reflexivity|].
  split.
  { apply (Hkey extract_test_record "nested" "nonexistent"
                [ ("value", VString "nested string value");
                  ("super", VMapping [("value", VString "Super Nested String Value")]) ]);
      reflexivity. }
  split.
  { apply (Hseg extract_test_record "list" "-1"
                [VString "abc"; VString "DEF"; VString "geh"]); reflexivity. }
  split.
  { apply (Hrange extract_test_record "list" "4"
                  [VString "abc"; VString "DEF"; VString "geh"] 4%N);
      [reflexivity | reflexivity | simpl; lia]. }
  apply (Hscalar extract_test_record "int" "nonexistent" (VNumber (of_Z 123)));
    reflexivity.
Defined.

(** ** Number Coercion: the claims *)

(** The paths of [TestExtractNumber]: the values the test expects, and an
    error where it expects one. *)
Lemma TestExtractNumber_cases :
  map (ExtractNumber number_test_record)
      [ "nonnumeric"; "int"; "float"; "nullValue"; "numericText"; "exponent"; "nested" ] =
  [ (None, Some (NotNumeric (VString "string")));
    (Some (of_Z 123), None);
    (Some f123_4, None);
    (None, None);
    (Some (of_Z 123), None);
    (Some (of_Z 1000), None);
    (None, Some (NotNumeric (VMapping [("value", VString "123")]))) ].
Proof. vm_compute. reflexivity. Qed.



(** ** String Coercion: ordering of the members *)

Section KeyOrder.

Lemma ascii_compare_refl (a : ascii) : Ascii.compare a a = Eq.
Proof. unfold Ascii.compare. apply N.compare_refl. Qed.

Lemma ascii_compare_lt_trans (a b c : ascii) :
  Ascii.compare a b = Lt -> Ascii.compare b c = Lt -> Ascii.compare a c = Lt.
Proof.
  unfold Ascii.compare. rewrite !N.compare_lt_iff. apply N.lt_trans.
Qed.

Lemma string_leb_trans (s1 : string) :
  forall s2 s3, String.leb s1 s2 = true -> String.leb s2 s3 = true ->
                String.leb s1 s3 = true.
Proof.
  unfold String.leb.
  induction s1 as [|a s1 IH]; intros [|b s2] [|c s3]; simpl; try congruence.
  destruct (Ascii.compare a b) eqn:Hab; try discriminate.
  - apply Ascii.compare_eq_iff in Hab. subst b.
    destruct (Ascii.compare a c); try congruence. apply IH.
  - destruct (Ascii.compare b c) eqn:Hbc; try discriminate.
    + apply Ascii.compare_eq_iff in Hbc. subst c. rewrite Hab. reflexivity.
    + rewrite (ascii_compare_lt_trans a b c Hab Hbc). reflexivity.
Qed.

Lemma string_leb_false (s1 s2 : string) :
  String.leb s1 s2 = false -> String.leb s2 s1 = true.
Proof.
  intros H. destruct (String.leb_total s1 s2) as [H' | H']; congruence.
Qed.

Context {A : Type}.

Implicit Types (kv x y : string * A) (l : list (string * A)).

Lemma insert_entry_permutation kv l : Permutation (insert_entry kv l) (kv :: l).
Proof.
  induction l as [|x l IH]; simpl; [reflexivity|].
  destruct (String.leb (fst kv) (fst x)); [reflexivity|].
  rewrite IH. apply perm_swap.
Qed.

Lemma sort_entries_permutation l : Permutation (sort_entries l) l.
Proof.
  induction l as [|x l IH]; simpl; [reflexivity|].
  rewrite insert_entry_permutation. apply perm_skip. exact IH.
Qed.

Lemma insert_entry_head kv x l :
  key_le x kv -> HdRel key_le x l -> HdRel key_le x (insert_entry kv l).
Proof.
  intros Hx Hl. destruct l as [|y l]; simpl; [constructor; exact Hx|].
  destruct (String.leb (fst kv) (fst y)); constructor;
    [exact Hx | inversion Hl; assumption].
Qed.

Lemma insert_entry_sorted kv l : Sorted key_le l -> Sorted key_le (insert_entry kv l).
Proof.
  induction 1 as [|x l Hs IH Hhd]; simpl; [repeat constructor|].
  destruct (String.leb (fst kv) (fst x)) eqn:Hle.
  - constructor; [constructor; assumption|constructor; exact Hle].
  - constructor; [exact IH|].
    apply insert_entry_head; [apply string_leb_false; exact Hle | exact Hhd].
Qed.

Lemma sort_entries_sorted l : Sorted key_le (sort_entries l).
Proof.
  induction l as [|x l IH]; simpl; [constructor|].
  apply insert_entry_sorted. exact IH.
Qed.

(** Two entries with different keys can be inserted in either order. *)
Lemma insert_entry_commute x y l :
  fst x <> fst y ->
  insert_entry x (insert_entry y l) = insert_entry y (insert_entry x l).
Proof.
  intros Hxy.
  assert (Hone : String.leb (fst x) (fst y) = negb (String.leb (fst y) (fst x))).
  { destruct (String.leb (fst x) (fst y)) eqn:H1, (String.leb (fst y) (fst x)) eqn:H2;
      try reflexivity.
    - exfalso. apply Hxy. apply String.leb_antisym; assumption.
    - apply string_leb_false in H1. congruence. }
  induction l as [|z l IH]; simpl.
  - rewrite Hone. destruct (String.leb (fst y) (fst x)); reflexivity.
  - destruct (String.leb (fst y) (fst z)) eqn:Hyz,
             (String.leb (fst x) (fst z)) eqn:Hxz; simpl.
    + rewrite Hone, Hyz, Hxz. destruct (String.leb (fst y) (fst x)); reflexivity.
    + rewrite Hyz.
      destruct (String.leb (fst x) (fst y)) eqn:H; [|rewrite Hxz; reflexivity].
      rewrite (string_leb_trans _ _ _ H Hyz) in Hxz. discriminate.
    + rewrite Hxz.
      destruct (String.leb (fst y) (fst x)) eqn:H; [|rewrite Hyz; reflexivity].
      rewrite (string_leb_trans _ _ _ H Hxz) in Hyz. discriminate.
    + rewrite Hyz, Hxz, IH. reflexivity.
Qed.

(** The order in which the entries were inserted does not show after sorting,
    as long as no key occurs twice. *)
Lemma sort_entries_insertion_order l l' :
  Permutation l l' -> NoDup (map fst l) -> sort_entries l = sort_entries l'.
Proof.
  induction 1 as [|x l l' Hp IH|x y l|l l' l'' Hp1 IH1 Hp2 IH2]; intros Hnd; simpl.
  - reflexivity.
  - inversion Hnd; subst. rewrite IH by assumption. reflexivity.
  - apply insert_entry_commute.
    inversion Hnd as [|? ? Hnotin _]; subst. intros Heq. apply Hnotin.
    left. symmetry. exact Heq.
  - rewrite IH1 by assumption. apply IH2.
    apply (Permutation_NoDup (Permutation_map fst Hp1)). exact Hnd.
Qed.

End KeyOrder.

(** ** String Coercion: the claims *)

Lemma marshal_normalize_mapping (caseSensitive : bool) (m : list (string * Value)) :
  marshal (normalize caseSensitive (VMapping m)) =
  "{" ++ String.concat "," (map member (sort_entries (rendered caseSensitive m))) ++ "}".
Proof.
  simpl. unfold rendered. rewrite map_map.
  rewrite map_ext
    with (g := fun kv : string * Value =>
                 let '(k, x) := kv in (k, marshal (normalize caseSensitive x))).
  - reflexivity.
  - intros [k x]. reflexivity.
Qed.

Lemma marshal_normalize_sequence (caseSensitive : bool) (l : list Value) :
  marshal (normalize caseSensitive (VSequence l)) =
  "[" ++ String.concat "," (map (fun x => marshal (normalize caseSensitive x)) l) ++ "]".
Proof. simpl. rewrite map_map. reflexivity. Qed.

Lemma rendered_keys (caseSensitive : bool) (m : list (string * Value)) :
  map fst (rendered caseSensitive m) = map fst m.
Proof.
  unfold rendered. rewrite map_map. apply map_ext. intros [k x]. reflexivity.
Qed.

(** Reordering the entries of mappings, at any depth, does not change the
    text of a tree. *)
Lemma marshal_reordered (caseSensitive : bool) (v v' : Value) :
  reordered v v' ->
  marshal (normalize caseSensitive v) = marshal (normalize caseSensitive v').
Proof.
  induction 1 as [v|v1 v2 v3 _ IH1 _ IH2|m m' Hp Hnd|m1 m2 k v v' _ IH|l1 l2 v v' _ IH].
  - reflexivity.
  - rewrite IH1. exact IH2.
  - rewrite !marshal_normalize_mapping.
    rewrite (sort_entries_insertion_order (rendered caseSensitive m)
                                          (rendered caseSensitive m'));
      [reflexivity | apply Permutation_map; exact Hp | rewrite rendered_keys; exact Hnd].
  - rewrite !marshal_normalize_mapping. unfold rendered.
    rewrite !map_app. cbn [map]. rewrite IH. reflexivity.
  - rewrite !marshal_normalize_sequence.
    rewrite !map_app. cbn [map]. rewrite IH. reflexivity.
Qed.

Lemma reordered_scalar (v v' : Value) :
  reordered v v' -> is_scalar v = true -> v' = v.
Proof.
  induction 1 as [v|v1 v2 v3 _ IH1 _ IH2| | |]; intros Hs; try discriminate.
  - reflexivity.
  - pose proof (IH1 Hs) as E. subst v2. apply IH2. exact Hs.
Qed.

Lemma reordered_kind (v v' : Value) :
  reordered v v' -> is_scalar v = is_scalar v'.
Proof.
  induction 1; try reflexivity. congruence.
Qed.

Lemma ExtractString_text (record : option Record) (path : string)
    (caseSensitive : bool) (v : Value) :
  Extract record path = Some v -> is_scalar v = false ->
  ExtractString record path caseSensitive = Some (marshal (normalize caseSensitive v)).
Proof.
  intros H Hs. unfold ExtractString. rewrite H.
  destruct v; try discriminate; reflexivity.
Qed.

(** The paths of [TestExtractString], each with the case sensitivity the
    test chooses and the string it expects. *)
Lemma TestExtractString_cases :
  map (fun c => ExtractString string_test_record (fst c) (snd c))
      [ ("bool", false); ("int", false); ("float", false); ("nullValue", false);
        ("numericText", false); ("exponent", false); ("nested", true);
        ("keepUpper", true); ("caseInsensitive", false);
        ("list.0", false); ("list.1", false); ("list.2", false);
        ("list", false); ("emptyString", false) ] =
  [ Some "true"; Some "123"; Some "123.4"; None;
    Some "123"; Some "1e3";
    Some ("{" ++ quoted "propA" ++ ":" ++ quoted "valA" ++ ","
              ++ quoted "propB" ++ ":" ++ quoted "valB" ++ "}");
    Some "Has Upper Case"; Some "has upper case";
    Some "abc"; Some "def"; Some "geh";
    Some ("[" ++ quoted "abc" ++ "," ++ quoted "def" ++ "," ++ quoted "geh" ++ "]");
    Some EmptyString ].
Proof. vm_compute. reflexivity. Qed.

(** C6.  When the path resolves to a composite, [ExtractString] writes it as
    compact text.  A mapping is an opening brace, its members separated by
    single commas, and a closing brace, each member being the quoted key, a
    colon and the text of the value, with nothing in between; the members are
    in ascending order of their keys, and two mappings with the same entries
    inserted in different orders give the same text, also when the reordered
    mappings lie deeper in the composite.  A sequence is written
    between brackets with its elements in their original order.  The mapping
    inserted as propB then propA is written with propA first. *)
Theorem ExtractString_composite :
  (forall record path caseSensitive m,
      Extract record path = Some (VMapping m) ->
      ExtractString record path caseSensitive =
        Some ("{" ++ String.concat ","
                       (map member (sort_entries (rendered caseSensitive m))) ++ "}") /\
      Sorted key_le (sort_entries (rendered caseSensitive m)) /\
      Permutation (sort_entries (rendered caseSensitive m)) (rendered caseSensitive m)) /\
  (forall record record' path path' caseSensitive m m',
      Extract record path = Some (VMapping m) ->
      Extract record' path' = Some (VMapping m') ->
      Permutation m m' -> NoDup (map fst m) ->
      ExtractString record path caseSensitive =
      ExtractString record' path' caseSensitive) /\
  (forall record record' path path' caseSensitive v v',
      Extract record path = Some v ->
      Extract record' path' = Some v' ->
      reordered v v' ->
      ExtractString record path caseSensitive =
      ExtractString record' path' caseSensitive) /\
  (forall record path caseSensitive l,
      Extract record path = Some (VSequence l) ->
      ExtractString record path caseSensitive =
        Some ("[" ++ String.concat ","
                       (map (fun x => marshal (normalize caseSensitive x)) l) ++ "]")) /\
  ExtractString string_test_record "nested" true =
    Some ("{" ++ quoted "propA" ++ ":" ++ quoted "valA" ++ ","
              ++ quoted "propB" ++ ":" ++ quoted "valB" ++ "}").
Proof.
  assert (Hmap : forall record path cs m,
             Extract record path = Some (VMapping m) ->
             ExtractString record path cs =
             Some ("{" ++ String.concat "," (map member (sort_entries (rendered cs m))) ++ "}")).
  { intros record path cs m H. unfold ExtractString. rewrite H.
    rewrite marshal_normalize_mapping. reflexivity. }
  split; [|split; [|split; [|split]]].
  - intros record path cs m H. split; [apply Hmap; exact H|].
    split; [apply sort_entries_sorted | apply sort_entries_permutation].
  - intros record record' path path' cs m m' H H' Hp Hnd.
    rewrite (Hmap _ _ cs _ H), (Hmap _ _ cs _ H').
    rewrite (sort_entries_insertion_order (rendered cs m) (rendered cs m'));
      [reflexivity | apply Permutation_map; exact Hp | rewrite rendered_keys; exact Hnd].
  - intros record record' path path' cs v v' H H' Hr.
    destruct (is_scalar v) eqn:Hs.
    + pose proof (reordered_scalar v v' Hr Hs) as ->.
      unfold ExtractString. rewrite H, H'. reflexivity.
    + rewrite (ExtractString_text _ _ cs v H Hs).
      rewrite (ExtractString_text _ _ cs v' H')
        by (rewrite <- (reordered_kind v v' Hr); exact Hs).
      rewrite (marshal_reordered cs v v' Hr). reflexivity.
  - intros record path cs l H. unfold ExtractString. rewrite H.
    rewrite marshal_normalize_sequence. reflexivity.
  - vm_compute. reflexivity.
Qed.

Lemma deep_tree_is_reordered : reordered deep_tree deep_tree_reordered.
Proof.
  unfold deep_tree, deep_tree_reordered.
  eapply reordered_trans.
  { apply reordered_entries; [apply perm_swap|].
    repeat constructor; simpl; intuition discriminate. }
  eapply reordered_trans.
  { apply (reordered_in_mapping [] _ "a").
    apply (reordered_in_sequence [] []).
    apply reordered_entries; [apply perm_swap|].
    repeat constructor; simpl; intuition discriminate. }
  apply (reordered_in_mapping [_] [] "b").
  apply reordered_entries; [apply perm_swap|].
  repeat constructor; simpl; intuition discriminate.
Qed.

Lemma ExtractString_composite_witness :
  ExtractString string_test_record "nested" false =
  ExtractString
    (Some {| ID := "other";
             Data := Some [("m", VMapping [("propA", VString "valA");
                                           ("propB", VString "valB")])] |})
    "m" false /\
  ExtractString (Some {| ID := "one"; Data := Some [("t", deep_tree)] |}) "t" true =
  ExtractString (Some {| ID := "two"; Data := Some [("t", deep_tree_reordered)] |})
                "t" true /\
  ExtractString string_test_record "list" true =
    Some ("[" ++ quoted "abc" ++ "," ++ quoted "DEF" ++ "," ++ quoted "geh" ++ "]") /\
  Sorted key_le (sort_entries (rendered true [("propB", VString "valB");
                                               ("propA", VString "valA")])).
Proof.
  destruct ExtractString_composite as (Hmap & Horder & Hdeep & Hseq & _).
  split; [|split; [|split]].
  - apply (Horder _ _ _ _ false [("propB", VString "valB"); ("propA", VString "valA")]
                  [("propA", VString "valA"); ("propB", VString "valB")]).
    + reflexivity.
    + reflexivity.
    + apply perm_swap.
    + repeat constructor; simpl; intuition discriminate.
  - apply (Hdeep _ _ _ _ true deep_tree deep_tree_reordered);
      [reflexivity | reflexivity | exact deep_tree_is_reordered].
  - apply (Hseq string_test_record "list" true
                [VString "abc"; VString "DEF"; VString "geh"]). reflexivity.
  - apply (Hmap string_test_record "nested" true). reflexivity.
Defined.




Lemma resolve_nest (segments : list string) (leaf : Value) :
  resolve (nest segments leaf) segments = Some leaf.
Proof.
  induction segments as [|seg rest IH]; simpl; [reflexivity|].
  rewrite String.eqb_refl. exact IH.
Qed.

Lemma Extract_fresh_record (path s : string) :
  Extract (fresh_record path s) path = Some (VString s).
Proof.
  unfold Extract, fresh_record. simpl Data.
  pose proof (split_path_nonempty path) as Hne.
  destruct (split_path path) as [|seg rest]; [congruence|].
  simpl. rewrite String.eqb_refl. apply resolve_nest.
Qed.

(** C9.  Whatever string [s] the case-sensitive coercion produces for a
    record and a path, a fresh record that holds the string scalar [s] at
    that path is coerced to [s] again. *)
Theorem case_sensitive_coercion_fixed_point :
  forall (record : option Record) (path s : string),
    ExtractString record path true = Some s ->
    Extract (fresh_record path s) path = Some (VString s) /\
    ExtractString (fresh_record path s) path true = Some s.
Proof.
  intros record path s _.
  pose proof (Extract_fresh_record path s) as H.
  split; [exact H|]. unfold ExtractString. rewrite H. reflexivity.
Qed.

Lemma case_sensitive_coercion_fixed_point_witness :
  ExtractString
    (fresh_record "nested"
       ("{" ++ quoted "propA" ++ ":" ++ quoted "valA" ++ ","
            ++ quoted "propB" ++ ":" ++ quoted "valB" ++ "}"))
    "nested" true =
  Some ("{" ++ quoted "propA" ++ ":" ++ quoted "valA" ++ ","
            ++ quoted "propB" ++ ":" ++ quoted "valB" ++ "}").
Proof.
  apply (case_sensitive_coercion_fixed_point string_test_record "nested").
  vm_compute. reflexivity.
Defined.

(** * Further properties of the aggregators *)

Section FurtherLoops.

Variable path : string.

Lemma Average_is_loop (records : list (option Record)) :
  Average records path = average_loop records path zero zero.
Proof. destruct records; reflexivity. Qed.

Lemma Average_values (records : list (option Record)) (v : float64)
    (vals : list float64) :
  no_error records path ->
  present_values records path = v :: vals ->
  Average records path =
  (Some (F64.div (fsum (v :: vals)) (fcount (v :: vals))), None).
Proof.
  intros Hok Hp. rewrite (Average_no_error path records Hok), Hp. reflexivity.
Qed.

Lemma StandardDeviation_is_loops (records : list (option Record)) :
  StandardDeviation records path =
  match snd (Average records path) with
  | Some e => Returns (None, Some e)
  | None => deviation_loop records path (fst (Average records path)) zero zero
  end.
Proof.
  destruct records as [|r records]; [reflexivity|].
  unfold StandardDeviation. destruct (Average (r :: records) path) as [avg err].
  reflexivity.
Qed.

Lemma average_loop_error_absent (records : list (option Record)) :
  forall sum counted avg e,
    average_loop records path sum counted = (avg, Some e) -> avg = None.
Proof.
  induction records as [|r records IH]; intros sum counted avg e H; simpl in H.
  - destruct (F64.eqb counted zero); discriminate.
  - destruct (ExtractNumber r path) as [number err].
    destruct err as [e'|]; [injection H as <- _; reflexivity|].
    destruct number; eapply IH; exact H.
Qed.

Lemma average_loop_filter (records : list (option Record)) :
  forall sum counted,
    average_loop (filter (fun r => negb (holds_nothing path r)) records) path sum counted =
    average_loop records path sum counted.
Proof.
  induction records as [|r records IH]; intros sum counted; [reflexivity|].
  cbn [filter]. unfold holds_nothing at 1.
  destruct (ExtractNumber r path) as [number err] eqn:Hr.
  destruct number as [n|], err as [e|]; cbn [negb average_loop]; rewrite Hr;
    try reflexivity; apply IH.
Qed.

Lemma deviation_loop_filter (records : list (option Record)) :
  forall avg acc counted,
    deviation_loop (filter (fun r => negb (holds_nothing path r)) records) path avg acc counted =
    deviation_loop records path avg acc counted.
Proof.
  induction records as [|r records IH]; intros avg acc counted; [reflexivity|].
  cbn [filter]. unfold holds_nothing at 1.
  destruct (ExtractNumber r path) as [number err] eqn:Hr.
  destruct number as [n|], err as [e|]; cbn [negb deviation_loop]; rewrite Hr;
    try reflexivity; try apply IH.
  destruct avg; [apply IH|reflexivity].
Qed.

End FurtherLoops.

(** X1.  [StandardDeviation] reports exactly the error of [Average] (none when
    [Average] reports none), so the error check of its second loop never
    fires; it returns a value exactly when [Average] does; and neither
    function returns a value together with an error. *)
Theorem StandardDeviation_follows_Average :
  forall (records : list (option Record)) (path : string),
  exists sd : option float64,
    StandardDeviation records path = Returns (sd, snd (Average records path)) /\
    (sd = None <-> fst (Average records path) = None) /\
    (snd (Average records path) <> None -> fst (Average records path) = None).
Proof.
  intros records path. rewrite StandardDeviation_is_loops.
  destruct (Average records path) as [avg err] eqn:HA. cbn [fst snd].
  destruct err as [e|].
  - exists None. split; [reflexivity|].
    rewrite Average_is_loop in HA.
    rewrite (average_loop_error_absent path _ _ _ _ _ HA). tauto.
  - pose proof (Average_returns path records avg HA) as Hok.
    rewrite (Average_no_error path records Hok) in HA.
    destruct (present_values records path) as [|v vals] eqn:Hp; injection HA as <-.
    + exists None. split; [|tauto].
      apply deviation_loop_nothing_present. apply nothing_present; assumption.
    + eexists. rewrite (deviation_loop_no_error path _ _ Hok). rewrite Hp.
      fold (fcount (v :: vals)). rewrite fcount_nonzero by discriminate.
      split; [reflexivity|]. split; [split; discriminate|congruence].
Qed.

(** X2.  Records that hold neither a value nor an error at the path (nil
    records, records without the key, [null] values) can be removed from the
    collection, or added to it, without changing the result of [Average] or of
    [StandardDeviation], whether that result is a value, absent or an error. *)
Theorem records_without_value_do_not_count :
  forall (records : list (option Record)) (path : string),
    Average (filter (fun r => negb (holds_nothing path r)) records) path =
    Average records path /\
    StandardDeviation (filter (fun r => negb (holds_nothing path r)) records) path =
    StandardDeviation records path.
Proof.
  intros records path.
  assert (HA : Average (filter (fun r => negb (holds_nothing path r)) records) path =
               Average records path).
  { rewrite !Average_is_loop. apply average_loop_filter. }
  split; [exact HA|].
  rewrite !StandardDeviation_is_loops, HA.
  destruct (snd (Average records path)); [reflexivity|].
  apply deviation_loop_filter.
Qed.

Section Signs.

Local Open Scope Z_scope.

Lemma binary_round_aux_sign (s : bool) (m e : Z) (l : location) :
  has_sign s (binary_round_aux prec emax s m e l) = true.
Proof.
  unfold binary_round_aux.
  destruct (shr_fexp prec emax m e l) as [mrs' e'].
  destruct (shr_fexp prec emax _ e' loc_Exact) as [mrs'' e''].
  destruct (shr_m mrs'') as [|p|p]; [|destruct (e'' <=? emax - prec)|];
    simpl; try reflexivity; apply Bool.eqb_reflx.
Qed.

Lemma has_sign_not_negative (x : float64) :
  has_sign false x = true -> not_negative x = true.
Proof. destruct x as [s|s| |s m e]; simpl; try destruct s; auto. Qed.

Lemma mul_self_not_negative (d : float64) : not_negative (F64.mul d d) = true.
Proof.
  destruct d as [s|s| |s m e]; try (destruct s; reflexivity); try reflexivity.
  unfold F64.mul, SFmul. apply has_sign_not_negative.
  replace (xorb s s) with false by (destruct s; reflexivity).
  apply binary_round_aux_sign.
Qed.

Lemma add_not_negative (a b : float64) :
  not_negative a = true -> not_negative b = true ->
  not_negative (F64.add a b) = true.
Proof.
  intros Ha Hb.
  destruct a as [sa|sa| |sa ma ea], b as [sb|sb| |sb mb eb];
    try destruct sa; try destruct sb;
    try discriminate Ha; try discriminate Hb; try reflexivity.
  unfold F64.add, SFadd. cbv [cond_Zopp].
  destruct (shl_align ma ea (Z.min ea eb)) as [m1 e1].
  destruct (shl_align mb eb (Z.min ea eb)) as [m2 e2]. cbn [fst].
  change (Zpos m1 + Zpos m2) with (Zpos (m1 + m2)).
  unfold binary_normalize, binary_round.
  destruct (shl_align (m1 + m2) _ _) as [mz ez].
  apply has_sign_not_negative. apply binary_round_aux_sign.
Qed.

Lemma div_not_negative (a c : float64) :
  not_negative a = true -> positive_count c = true ->
  not_negative (F64.div a c) = true.
Proof.
  intros Ha Hc.
  destruct a as [sa|sa| |sa ma ea], c as [sc|sc| |sc mc ec];
    try destruct sa; try destruct sc;
    try discriminate Ha; try discriminate Hc; try reflexivity.
  unfold F64.div, SFdiv.
  destruct (SFdiv_core_binary prec emax (Zpos ma) ea (Zpos mc) ec) as [[mz ez] lz].
  apply has_sign_not_negative. apply binary_round_aux_sign.
Qed.

Lemma sqrt_not_negative (a : float64) :
  not_negative a = true -> not_negative (F64.sqrt a) = true.
Proof.
  intros Ha.
  destruct a as [s|s| |s m e]; try destruct s; try discriminate Ha;
    try reflexivity.
  unfold F64.sqrt, SFsqrt.
  destruct (SFsqrt_core_binary prec emax (Zpos m) e) as [[mz ez] lz].
  apply has_sign_not_negative. apply binary_round_aux_sign.
Qed.

Lemma squared_deviations_not_negative (a : float64) (vals : list float64) :
  forall acc, not_negative acc = true ->
    not_negative (fold_left (fun acc v => F64.add acc (F64.mul (F64.sub v a) (F64.sub v a)))
                            vals acc) = true.
Proof.
  induction vals as [|v vals IH]; intros acc Hacc; [exact Hacc|].
  simpl. apply IH. apply add_not_negative; [exact Hacc|apply mul_self_not_negative].
Qed.

End Signs.

(** X3.  A value returned by [StandardDeviation] is never negative, not even
    a negative zero: it is a NaN or has its sign bit clear, whatever float64
    values the records hold. *)
Theorem StandardDeviation_not_negative :
  forall (records : list (option Record)) (path : string)
         (x : float64) (err : option error),
    StandardDeviation records path = Returns (Some x, err) ->
    not_negative x = true.
Proof.
  intros records path x err H. rewrite StandardDeviation_is_loops in H.
  destruct (Average records path) as [avg e] eqn:HA. cbn [fst snd] in H.
  destruct e as [e|]; [discriminate|].
  pose proof (Average_returns path records avg HA) as Hok.
  rewrite (Average_no_error path records Hok) in HA.
  destruct (present_values records path) as [|v vals] eqn:Hp; injection HA as <-.
  - rewrite deviation_loop_nothing_present in H by (apply nothing_present; assumption).
    discriminate.
  - rewrite (deviation_loop_no_error path _ _ Hok), Hp in H.
    fold (fcount (v :: vals)) in H. rewrite fcount_nonzero in H by discriminate.
    injection H as <- _.
    apply sqrt_not_negative. apply div_not_negative.
    + apply (squared_deviations_not_negative _ (v :: vals) zero). reflexivity.
    + apply count_positive; [left; reflexivity|discriminate].
Qed.

Lemma StandardDeviation_not_negative_witness :
  not_negative (of_Z 2) = true.
Proof.
  apply (StandardDeviation_not_negative
           (map (number_record "value") eight_values) "value" (of_Z 2) None).
  vm_compute. reflexivity.
Defined.

Section NaN.

Lemma add_nan_r (x : float64) : F64.add x S754_nan = S754_nan.
Proof. destruct x as [s|s| |s m e]; reflexivity. Qed.

Lemma sub_nan_r (x : float64) : F64.sub x S754_nan = S754_nan.
Proof. destruct x as [s|s| |s m e]; reflexivity. Qed.

Lemma fsum_from_nan (vals : list float64) :
  fold_left F64.add vals S754_nan = S754_nan.
Proof. induction vals as [|v vals IH]; [reflexivity|exact IH]. Qed.

Lemma fsum_with_nan (vals : list float64) :
  In S754_nan vals -> forall acc, fold_left F64.add vals acc = S754_nan.
Proof.
  induction vals as [|v vals IH]; intros Hin acc; [contradiction|].
  simpl. destruct Hin as [-> | Hin].
  - rewrite add_nan_r. apply fsum_from_nan.
  - apply IH. exact Hin.
Qed.

Lemma div_nan_l (c : float64) : F64.div S754_nan c = S754_nan.
Proof. reflexivity. Qed.

Lemma deviations_from_nan (vals : list float64) :
  vals <> [] -> forall acc,
    fold_left (fun acc v => F64.add acc (F64.mul (F64.sub v S754_nan) (F64.sub v S754_nan)))
              vals acc = S754_nan.
Proof.
  induction vals as [|v vals IH]; intros Hne acc; [congruence|].
  simpl. rewrite sub_nan_r. change (F64.mul S754_nan S754_nan) with S754_nan.
  rewrite add_nan_r. destruct vals as [|w vals]; [reflexivity|].
  apply IH. discriminate.
Qed.

End NaN.

(** X4.  On a collection without coercion error in which some record holds a
    NaN, [Average] and [StandardDeviation] both return NaN. *)
Theorem NaN_value_gives_NaN :
  forall (records : list (option Record)) (path : string),
    no_error records path ->
    In S754_nan (present_values records path) ->
    Average records path = (Some S754_nan, None) /\
    StandardDeviation records path = Returns (Some S754_nan, None).
Proof.
  intros records path Hok Hin.
  assert (HA : Average records path = (Some S754_nan, None)).
  { rewrite (Average_no_error path records Hok).
    destruct (present_values records path) as [|v vals] eqn:Hp; [contradiction|].
    unfold mean, fsum. rewrite (fsum_with_nan _ Hin). reflexivity. }
  split; [exact HA|].
  rewrite StandardDeviation_is_loops, HA. cbn [fst snd].
  rewrite (deviation_loop_no_error path _ _ Hok).
  destruct (present_values records path) as [|v vals] eqn:Hp; [contradiction|].
  fold (fcount (v :: vals)). rewrite fcount_nonzero by discriminate.
  rewrite deviations_from_nan by discriminate. reflexivity.
Qed.

Lemma NaN_value_gives_NaN_witness :
  Average nan_records "value" = (Some S754_nan, None) /\
  StandardDeviation nan_records "value" = Returns (Some S754_nan, None).
Proof.
  apply (NaN_value_gives_NaN nan_records "value").
  - repeat constructor.
  - simpl. tauto.
Defined.

Section DivideByOne.

Local Open Scope Z_scope.

Lemma binary_round_aux_canonical (s : bool) (m : positive) (e : Z) :
  fexp prec emax (Zpos (digits2_pos m) + e) = e -> e <= emax - prec ->
  binary_round_aux prec emax s (Zpos m) e loc_Exact = S754_finite s m e.
Proof.
  intros Hc He. unfold binary_round_aux.
  assert (H1 : shr_fexp prec emax (Zpos m) e loc_Exact =
               ({| shr_m := Zpos m; shr_r := false; shr_s := false |}, e)).
  { unfold shr_fexp. simpl Zdigits2. rewrite Hc, Z.sub_diag. reflexivity. }
  rewrite H1. cbn [shr_m loc_of_shr_record round_nearest_even]. rewrite H1.
  cbn [shr_m]. assert (Hle : (e <=? emax - prec) = true) by (apply Z.leb_le; lia).
  rewrite Hle. reflexivity.
Qed.

Lemma div_eucl_exact (a b q : Z) :
  0 < b -> a = q * b -> Z.div_eucl a b = (q, 0).
Proof.
  intros Hb ->.
  pose proof (Z_div_mult q b ltac:(lia)) as Hq.
  pose proof (Z_mod_mult q b) as Hr.
  unfold Z.div in Hq. unfold Z.modulo in Hr.
  destruct (Z.div_eucl (q * b) b) as [q' r']. congruence.
Qed.

(** Division by [1.0] returns the dividend. *)
Lemma div_one (x : float64) :
  well_formed x = true -> F64.div x one = x.
Proof.
  destruct x as [s|s| |s m e]; intros Hv.
  - destruct s; reflexivity.
  - destruct s; reflexivity.
  - reflexivity.
  - unfold well_formed, valid_binary, bounded, canonical_mantissa in Hv.
    apply andb_true_iff in Hv. destruct Hv as [Hc He].
    apply Z.eqb_eq in Hc. apply Z.leb_le in He.
    pose proof (digits2_pos_lower m) as Hl. pose proof (digits2_pos_upper m) as Hu.
    unfold F64.div, one, SFdiv. rewrite xorb_false_r.
    unfold SFdiv_core_binary.
    change (Zdigits2 (Zpos 4503599627370496)) with 53.
    cbn [Zdigits2].
    set (d := Zpos (digits2_pos m)) in *.
    assert (Hd1 : 1 <= d) by (unfold d; lia).
    destruct (Z.eq_dec e (emin prec emax)) as [Hemin | Hnorm].
    + (* the smallest exponent: the quotient is the mantissa itself *)
      assert (He' : Z.min (fexp prec emax (d + e - (53 + -52))) (e - -52) = e).
      { unfold fexp, emin, prec, emax in *. lia. }
      rewrite He'. replace (e - -52 - e) with 52 by lia.
      rewrite Z.shiftl_mul_pow2 by lia.
      rewrite (div_eucl_exact _ _ (Zpos m)) by (try reflexivity; lia).
      change (new_location (Zpos 4503599627370496) 0) with loc_Exact.
      apply binary_round_aux_canonical; assumption.
    + (* a normal number: the quotient is twice the mantissa, one exponent lower *)
      assert (Hd : d = prec) by (unfold fexp, emin, prec, emax in *; lia).
      assert (He' : Z.min (fexp prec emax (d + e - (53 + -52))) (e - -52) = e - 1).
      { unfold fexp, emin, prec, emax in *. lia. }
      rewrite He'. replace (e - -52 - (e - 1)) with 53 by lia.
      rewrite Z.shiftl_mul_pow2 by lia.
      rewrite (div_eucl_exact _ _ (Zpos m~0)) by (try reflexivity; lia).
      change (new_location (Zpos 4503599627370496) 0) with loc_Exact.
      unfold binary_round_aux.
      assert (H1 : shr_fexp prec emax (Zpos m~0) (e - 1) loc_Exact =
                   ({| shr_m := Zpos m; shr_r := false; shr_s := false |}, e)).
      { unfold shr_fexp. cbn [Zdigits2 digits2_pos]. rewrite Pos2Z.inj_succ. fold d.
        replace (fexp prec emax (Z.succ d + (e - 1)) - (e - 1)) with 1
          by (unfold fexp, emin, prec, emax in *; lia).
        unfold shr. cbn [iter_pos shr_record_of_loc shr_1]. f_equal. lia. }
      rewrite H1. cbn [shr_m loc_of_shr_record round_nearest_even].
      apply round_finish; [exact Hd|unfold fexp, emin, prec, emax in *; lia].
Qed.

End DivideByOne.

Section SingleValue.

Lemma add_zero_well_formed (v : float64) :
  well_formed v = true ->
  F64.add zero v = match v with S754_zero true => zero | _ => v end /\
  well_formed (F64.add zero v) = true.
Proof.
  intros Hv. destruct v as [s|s| |s m e]; try destruct s; split;
    try reflexivity; exact Hv.
Qed.

Lemma sub_self (v : float64) :
  is_finite v = true ->
  exists s, F64.sub v (match v with S754_zero true => zero | _ => v end) = S754_zero s.
Proof.
  intros Hf. destruct v as [s|s| |s m e]; try discriminate.
  - destruct s; eexists; reflexivity.
  - exists false. unfold F64.sub, SFsub. rewrite Z.sub_diag. reflexivity.
Qed.

Lemma sub_self_not_finite (v : float64) :
  is_finite v = false -> F64.sub v v = S754_nan.
Proof.
  intros Hf. destruct v as [s|s| |s m e]; try discriminate Hf;
    [destruct s; reflexivity | reflexivity].
Qed.

End SingleValue.

Lemma Average_single :
  forall (records : list (option Record)) (path : string) (v : float64),
    no_error records path ->
    present_values records path = [v] ->
    well_formed v = true ->
    Average records path =
    (Some (match v with S754_zero true => zero | _ => v end), None).
Proof.
  intros records path v Hok Hp Hv.
  rewrite (Average_no_error path records Hok), Hp.
  unfold mean, fsum, fcount. cbn [fold_left]. rewrite add_one_zero.
  destruct (add_zero_well_formed v Hv) as [Hadd Hwf].
  rewrite div_one by exact Hwf. rewrite Hadd. reflexivity.
Qed.

(** X5.  On a collection without coercion error in which exactly one record
    holds a value, [Average] returns that value unchanged; the one exception
    is a negative zero, which comes back as [0.0] because the sum starts from
    [0.0]. *)
Theorem Average_of_single_value :
  forall (records : list (option Record)) (path : string) (v : float64),
    no_error records path ->
    present_values records path = [v] ->
    well_formed v = true ->
    Average records path =
    (Some (match v with S754_zero true => zero | _ => v end), None).
Proof.
  intros records path v Hok Hp Hv.
  rewrite (Average_values path records v [] Hok Hp).
  unfold fsum, fcount. cbn [fold_left]. rewrite add_one_zero.
  destruct (add_zero_well_formed v Hv) as [Hadd Hwf].
  rewrite div_one by exact Hwf. rewrite Hadd. reflexivity.
Qed.

Lemma Average_of_single_value_witness :
  Average (lone_value_records f123_4) "value" = (Some f123_4, None) /\
  Average (lone_value_records (S754_zero true)) "value" = (Some zero, None).
Proof.
  split.
  - apply (Average_of_single_value (lone_value_records f123_4) "value" f123_4);
      [repeat constructor | reflexivity | reflexivity].
  - apply (Average_of_single_value (lone_value_records (S754_zero true)) "value"
                                   (S754_zero true));
      [repeat constructor | reflexivity | reflexivity].
Defined.

(** X6.  On a collection without coercion error in which exactly one record
    holds a value, [StandardDeviation] returns exactly [0.0] when the value is
    finite, and NaN when it is an infinity or a NaN. *)
Theorem StandardDeviation_of_single_value :
  forall (records : list (option Record)) (path : string) (v : float64),
    no_error records path ->
    present_values records path = [v] ->
    well_formed v = true ->
    StandardDeviation records path =
    Returns (Some (if is_finite v then zero else S754_nan), None).
Proof.
  intros records path v Hok Hp Hv.
  rewrite StandardDeviation_is_loops.
  rewrite (Average_single records path v Hok Hp Hv). cbn [fst snd].
  rewrite (deviation_loop_no_error path _ _ Hok), Hp.
  cbn [fold_left]. rewrite add_one_zero.
  change (F64.eqb one zero) with false. cbv iota.
  destruct (is_finite v) eqn:Hf.
  - destruct (sub_self v Hf) as [s ->]. destruct s; reflexivity.
  - assert (Hsame : match v with S754_zero true => zero | _ => v end = v)
      by (destruct v as [s|s| |s m e]; try discriminate; reflexivity).
    rewrite Hsame, sub_self_not_finite by exact Hf. reflexivity.
Qed.

Lemma StandardDeviation_of_single_value_witness :
  StandardDeviation (lone_value_records f123_4) "value" = Returns (Some zero, None) /\
  StandardDeviation (lone_value_records (S754_infinity false)) "value" =
  Returns (Some S754_nan, None).
Proof.
  split.
  - apply (StandardDeviation_of_single_value (lone_value_records f123_4) "value" f123_4);
      [repeat constructor | reflexivity | reflexivity].
  - apply (StandardDeviation_of_single_value
             (lone_value_records (S754_infinity false)) "value" (S754_infinity false));
      [repeat constructor | reflexivity | reflexivity].
Defined.

Section IntegerSums.

Local Open Scope Z_scope.

(** A full-length mantissa shifted left by [j] bits rounds to itself, [j]
    exponents higher. *)
Lemma binary_round_aux_shifted (s : bool) (P m : positive) (e j : Z) :
  0 <= j -> Zpos P = Zpos m * 2 ^ j ->
  Zpos (digits2_pos m) = prec ->
  emin prec emax <= e + j <= emax - prec ->
  binary_round_aux prec emax s (Zpos P) e loc_Exact = S754_finite s m (e + j).
Proof.
  intros Hj HP Hd He.
  pose proof (digits2_pos_lower m) as Hl. pose proof (digits2_pos_upper m) as Hu.
  rewrite Hd in Hl, Hu.
  assert (Hpj : 0 < 2 ^ j) by (apply Z.pow_pos_nonneg; lia).
  assert (HdP : Zpos (digits2_pos P) = prec + j).
  { apply digits2_pos_unique. rewrite HP.
    replace (prec + j - 1) with (prec - 1 + j) by lia.
    rewrite !Z.pow_add_r by (unfold prec; lia). split; nia. }
  unfold binary_round_aux.
  assert (H1 : shr_fexp prec emax (Zpos P) e loc_Exact =
               ({| shr_m := Zpos m; shr_r := false; shr_s := false |}, e + j)).
  { unfold shr_fexp. simpl Zdigits2. rewrite HdP.
    replace (fexp prec emax (prec + j + e) - e) with j
      by (unfold fexp, emin, prec, emax in *; lia).
    unfold shr. cbn [shr_record_of_loc].
    destruct j as [|k|k]; try lia.
    - f_equal; [|lia]. f_equal. rewrite HP. lia.
    - f_equal. rewrite HP. apply iter_shr_1_exact. lia. }
  rewrite H1. cbn [shr_m loc_of_shr_record round_nearest_even].
  apply round_finish; assumption.
Qed.

Lemma binary_round_shifted (P m : positive) (e j : Z) :
  0 <= j -> Zpos P = Zpos m * 2 ^ j ->
  Zpos (digits2_pos m) = prec ->
  emin prec emax <= e + j <= emax - prec ->
  binary_round prec emax false P e = S754_finite false m (e + j).
Proof.
  intros Hj HP Hd He.
  pose proof (digits2_pos_lower m) as Hl. pose proof (digits2_pos_upper m) as Hu.
  rewrite Hd in Hl, Hu.
  assert (Hpj : 0 < 2 ^ j) by (apply Z.pow_pos_nonneg; lia).
  assert (HdP : Zpos (digits2_pos P) = prec + j).
  { apply digits2_pos_unique. rewrite HP.
    replace (prec + j - 1) with (prec - 1 + j) by lia.
    rewrite !Z.pow_add_r by (unfold prec; lia). split; nia. }
  unfold binary_round, shl_align. rewrite HdP.
  replace (fexp prec emax (prec + j + e) - e) with j
    by (unfold fexp, emin, prec, emax in *; lia).
  destruct j as [|k|k]; try lia; apply binary_round_aux_shifted; assumption || lia.
Qed.

(** The float64 of an integer between 1 and 2^53: a full-length mantissa [m]
    and an exponent [e] with [m * 2^e] equal to the integer. *)
Lemma of_Z_shape (n : Z) :
  1 <= n <= 2 ^ 53 ->
  exists m e,
    of_Z n = S754_finite false m e /\
    Zpos (digits2_pos m) = prec /\ -52 <= e <= 1 /\
    Zpos m * 2 ^ (e + 52) = n * 2 ^ 52.
Proof.
  intros Hn. destruct (Z.eq_dec n (2 ^ 53)) as [-> | Hlt].
  - exists 4503599627370496%positive, 1. repeat split; reflexivity || lia.
  - destruct n as [|N|N]; try lia.
    pose proof (digits2_pos_lower N) as Hl. pose proof (digits2_pos_upper N) as Hu.
    assert (HdN : Zpos (digits2_pos N) <= prec).
    { destruct (Z_le_gt_dec (Zpos (digits2_pos N)) prec) as [H'|H']; [exact H'|].
      assert (2 ^ prec <= 2 ^ (Zpos (digits2_pos N) - 1))
        by (apply Z.pow_le_mono_r; lia).
      unfold prec in *. lia. }
    destruct (binary_round_integer N HdN) as (m & Hm & Hr).
    exists m, (Zpos (digits2_pos N) - prec).
    split; [exact Hr|].
    split; [apply (scaled_full_length N); assumption|].
    set (d := Zpos (digits2_pos N)) in *.
    assert (Hd1 : 1 <= d) by (unfold d; lia).
    split; [unfold prec in *; lia|].
    rewrite Hm, <- Z.mul_assoc, <- Z.pow_add_r by (unfold prec in *; lia).
    f_equal. f_equal. unfold prec. lia.
Qed.

Lemma pow2_cancel_lt (a b : Z) : 0 <= b -> 2 ^ a < 2 ^ b -> a < b.
Proof.
  intros Hb H. destruct (Z_lt_le_dec a b) as [Hlt|Hge]; [exact Hlt|].
  assert (2 ^ b <= 2 ^ a) by (apply Z.pow_le_mono_r; lia). lia.
Qed.

(** Adding two integers held in float64 is exact while the sum does not
    exceed 2^53. *)
Lemma add_integers_exact (a b : Z) :
  0 <= a -> 0 <= b -> a + b <= 2 ^ 53 ->
  F64.add (of_Z a) (of_Z b) = of_Z (a + b).
Proof.
  intros Ha Hb Hab.
  destruct (Z.eq_dec a 0) as [-> | Ha0].
  { rewrite Z.add_0_l. destruct (Z.eq_dec b 0) as [-> | Hb0]; [reflexivity|].
    destruct (of_Z_shape b ltac:(lia)) as (mb & eb & -> & _). reflexivity. }
  destruct (Z.eq_dec b 0) as [-> | Hb0].
  { rewrite Z.add_0_r. destruct (of_Z_shape a ltac:(lia)) as (ma & ea & -> & _).
    reflexivity. }
  destruct (of_Z_shape a ltac:(lia)) as (ma & ea & -> & Hda & Hea & Hva).
  destruct (of_Z_shape b ltac:(lia)) as (mb & eb & -> & Hdb & Heb & Hvb).
  destruct (of_Z_shape (a + b) ltac:(lia)) as (mn & en & -> & Hdn & Hen & Hvn).
  pose proof (digits2_pos_lower ma) as Hla. pose proof (digits2_pos_upper ma) as Hua.
  pose proof (digits2_pos_lower mb) as Hlb. pose proof (digits2_pos_upper mb) as Hub.
  pose proof (digits2_pos_lower mn) as Hln. pose proof (digits2_pos_upper mn) as Hun.
  rewrite Hda in Hla, Hua. rewrite Hdb in Hlb, Hub. rewrite Hdn in Hln, Hun.
  unfold prec in Hla, Hua, Hlb, Hub, Hln, Hun.
  change (2 ^ (53 - 1)) with 4503599627370496 in *.
  change (2 ^ 53) with 9007199254740992 in *.
  change (2 ^ 52) with 4503599627370496 in *.
  set (ez := Z.min ea eb).
  assert (Hez : -52 <= ez <= ea /\ ez <= eb) by (unfold ez; lia).
  (* the exponent of the sum is not below that of either operand *)
  assert (Hpa : 0 < 2 ^ (ea + 52)) by (apply Z.pow_pos_nonneg; lia).
  assert (Hpb : 0 < 2 ^ (eb + 52)) by (apply Z.pow_pos_nonneg; lia).
  assert (Hpn : 0 < 2 ^ (en + 52)) by (apply Z.pow_pos_nonneg; lia).
  assert (Hena : ea <= en).
  { assert (2 ^ (ea + 52) < 2 ^ (en + 52 + 1)).
    { rewrite (Z.pow_add_r 2 (en + 52) 1) by lia. change (2 ^ 1) with 2. nia. }
    apply pow2_cancel_lt in H; lia. }
  (* the aligned mantissas and their sum *)
  unfold F64.add, SFadd. cbv [cond_Zopp]. fold ez.
  rewrite (shl_align_value ma ea ez) by lia.
  rewrite (shl_align_value mb eb ez) by lia.
  assert (Hpz : 0 < 2 ^ (ez + 52)) by (apply Z.pow_pos_nonneg; lia).
  assert (Hsa : Zpos ma * 2 ^ (ea - ez) * 2 ^ (ez + 52) = a * 4503599627370496).
  { rewrite <- Z.mul_assoc, <- Z.pow_add_r by lia.
    replace (ea - ez + (ez + 52)) with (ea + 52) by lia. exact Hva. }
  assert (Hsb : Zpos mb * 2 ^ (eb - ez) * 2 ^ (ez + 52) = b * 4503599627370496).
  { rewrite <- Z.mul_assoc, <- Z.pow_add_r by lia.
    replace (eb - ez + (ez + 52)) with (eb + 52) by lia. exact Hvb. }
  assert (Hsn : Zpos mn * 2 ^ (en - ez) * 2 ^ (ez + 52) = (a + b) * 4503599627370496).
  { rewrite <- Z.mul_assoc, <- Z.pow_add_r by lia.
    replace (en - ez + (ez + 52)) with (en + 52) by lia. exact Hvn. }
  assert (Hsum : Zpos ma * 2 ^ (ea - ez) + Zpos mb * 2 ^ (eb - ez) =
                 Zpos mn * 2 ^ (en - ez)).
  { apply (Z.mul_reg_r _ _ (2 ^ (ez + 52))); [lia|].
    rewrite Z.mul_add_distr_r, Hsa, Hsb, Hsn. ring. }
  rewrite Hsum.
  assert (Hpos : 0 < Zpos mn * 2 ^ (en - ez)).
  { apply Z.mul_pos_pos; [lia|]. apply Z.pow_pos_nonneg; lia. }
  destruct (Zpos mn * 2 ^ (en - ez)) as [|P|P] eqn:HP; try lia.
  unfold binary_normalize.
  rewrite (binary_round_shifted P mn ez (en - ez)); try assumption.
  - f_equal. lia.
  - lia.
  - symmetry. exact HP.
  - unfold emin, prec, emax. lia.
Qed.

Lemma sum_from (ns : list Z) :
  forall k, 0 <= k -> Forall (fun n => 0 <= n) ns ->
    k + fold_right Z.add 0 ns <= 2 ^ 53 ->
    fold_left F64.add (map of_Z ns) (of_Z k) = of_Z (k + fold_right Z.add 0 ns).
Proof.
  induction ns as [|n ns IH]; intros k Hk Hns Hsum.
  - simpl. f_equal. lia.
  - inversion Hns as [|? ? Hn Hns']; subst. cbn [map fold_left fold_right] in *.
    assert (Hrest : 0 <= fold_right Z.add 0 ns).
    { clear -Hns'. induction Hns'; simpl; lia. }
    rewrite add_integers_exact by lia.
    rewrite IH by (try assumption; lia). f_equal. lia.
Qed.

End IntegerSums.

Lemma Average_naturals :
  forall (records : list (option Record)) (path : string) (ns : list Z),
    no_error records path ->
    present_values records path = map of_Z ns ->
    ns <> [] ->
    Forall (fun n => (0 <= n)%Z) ns ->
    (fold_right Z.add 0%Z ns <= 2 ^ 53)%Z ->
    (Z.of_nat (List.length ns) <= 2 ^ 53)%Z ->
    Average records path =
    (Some (F64.div (of_Z (fold_right Z.add 0%Z ns)) (of_Z (Z.of_nat (List.length ns)))),
     None).
Proof.
  intros records path ns Hok Hp Hne Hns Hsum Hlen.
  rewrite (Average_no_error path records Hok), Hp.
  destruct ns as [|n ns]; [congruence|].
  cbn [map]. unfold mean. rewrite <- (map_cons of_Z n ns).
  rewrite fcount_value, length_map. rewrite Z.min_l by exact Hlen.
  unfold fsum. change zero with (of_Z 0).
  rewrite sum_from by (try assumption; lia). reflexivity.
Qed.

(** X7.  When the present values are natural numbers whose sum does not
    exceed 2^53, the float64 sum of the loop is the exact sum, so [Average]
    returns the float64 quotient of the exact sum and the exact count: a
    single rounding, that of the division. *)
Theorem Average_of_natural_numbers :
  forall (records : list (option Record)) (path : string) (ns : list Z),
    no_error records path ->
    present_values records path = map of_Z ns ->
    ns <> [] ->
    Forall (fun n => (0 <= n)%Z) ns ->
    (fold_right Z.add 0%Z ns <= 2 ^ 53)%Z ->
    (Z.of_nat (List.length ns) <= 2 ^ 53)%Z ->
    Average records path =
    (Some (F64.div (of_Z (fold_right Z.add 0%Z ns)) (of_Z (Z.of_nat (List.length ns)))),
     None).
Proof.
  intros records path ns Hok Hp Hne Hns Hsum Hlen.
  destruct ns as [|n ns]; [congruence|].
  rewrite (Average_values path records (of_Z n) (map of_Z ns) Hok Hp).
  change (of_Z n :: map of_Z ns) with (map of_Z (n :: ns)).
  rewrite fcount_value, length_map, Z.min_l by exact Hlen.
  unfold fsum. change zero with (of_Z 0).
  rewrite sum_from by (try assumption; lia). reflexivity.
Qed.

Lemma Average_of_natural_numbers_witness :
  Average (map (number_record "value") eight_values) "value" =
  (Some (F64.div (of_Z 40) (of_Z 8)), None).
Proof.
  apply (Average_of_natural_numbers _ "value" [2; 4; 4; 4; 5; 5; 7; 9]%Z).
  - repeat constructor.
  - reflexivity.
  - discriminate.
  - repeat constructor; lia.
  - simpl. lia.
  - simpl. lia.
Defined.

Section ConstantData.

Local Open Scope Z_scope.

(** Dividing an integer product by one of its factors is exact. *)
Lemma div_integers_exact (n c : Z) :
  1 <= n -> 1 <= c -> n * c <= 2 ^ 53 ->
  F64.div (of_Z (n * c)) (of_Z c) = of_Z n.
Proof.
  intros Hn Hc Hnc.
  destruct (of_Z_shape (n * c) ltac:(nia)) as (m1 & e1 & -> & Hd1 & He1 & Hv1).
  destruct (of_Z_shape c ltac:(nia)) as (m2 & e2 & -> & Hd2 & He2 & Hv2).
  destruct (of_Z_shape n ltac:(nia)) as (mn & en & -> & Hdn & Hen & Hvn).
  pose proof (digits2_pos_lower m1) as Hl1. pose proof (digits2_pos_upper m1) as Hu1.
  pose proof (digits2_pos_lower m2) as Hl2. pose proof (digits2_pos_upper m2) as Hu2.
  pose proof (digits2_pos_lower mn) as Hln. pose proof (digits2_pos_upper mn) as Hun.
  rewrite Hd1 in Hl1, Hu1. rewrite Hd2 in Hl2, Hu2. rewrite Hdn in Hln, Hun.
  unfold prec in Hl1, Hu1, Hl2, Hu2, Hln, Hun.
  change (2 ^ (53 - 1)) with 4503599627370496 in *.
  change (2 ^ 53) with 9007199254740992 in *.
  change (2 ^ 52) with 4503599627370496 in *.
  set (x1 := e1 + 52) in *. set (x2 := e2 + 52) in *. set (xn := en + 52) in *.
  assert (Hx : 0 <= x1 /\ 0 <= x2 /\ 0 <= xn) by (unfold x1, x2, xn; lia).
  assert (Hp1 : 0 < 2 ^ x1) by (apply Z.pow_pos_nonneg; lia).
  assert (Hp2 : 0 < 2 ^ x2) by (apply Z.pow_pos_nonneg; lia).
  assert (Hpn : 0 < 2 ^ xn) by (apply Z.pow_pos_nonneg; lia).
  (* the values multiply: mn * m2 * 2^(xn + x2) = m1 * 2^(x1 + 52) *)
  assert (HE : Zpos mn * Zpos m2 * 2 ^ (xn + x2) = Zpos m1 * 2 ^ (x1 + 52)).
  { rewrite !Z.pow_add_r by lia. change (2 ^ 52) with 4503599627370496.
    transitivity ((Zpos mn * 2 ^ xn) * (Zpos m2 * 2 ^ x2)); [ring|].
    rewrite Hvn, Hv2.
    transitivity ((n * c * 4503599627370496) * 4503599627370496); [ring|].
    rewrite <- Hv1. ring. }
  assert (Hj : 0 <= xn + x2 - x1 + 1).
  { assert (H : 2 ^ (x1 + 104) < 2 ^ (xn + x2 + 106)).
    { apply Z.le_lt_trans with (Zpos m1 * 2 ^ (x1 + 52)).
      - replace (x1 + 104) with (52 + (x1 + 52)) by lia.
        rewrite (Z.pow_add_r 2 52) by lia. change (2 ^ 52) with 4503599627370496.
        apply Z.mul_le_mono_nonneg_r; [apply Z.pow_nonneg|]; lia.
      - rewrite <- HE. replace (xn + x2 + 106) with (106 + (xn + x2)) by lia.
        rewrite (Z.pow_add_r 2 106) by lia.
        apply Z.mul_lt_mono_pos_r; [apply Z.pow_pos_nonneg; lia|].
        change (2 ^ 106) with (9007199254740992 * 9007199254740992). nia. }
    apply pow2_cancel_lt in H; lia. }
  set (j := xn + x2 - x1 + 1) in *.
  assert (Hpj : 0 < 2 ^ j) by (apply Z.pow_pos_nonneg; lia).
  assert (HQ : Zpos m1 * 2 ^ 53 = (Zpos mn * 2 ^ j) * Zpos m2).
  { apply (Z.mul_reg_r _ _ (2 ^ (x1 + 51))); [apply Z.pow_nonzero; lia|].
    rewrite <- !Z.mul_assoc.
    replace (2 ^ 53 * 2 ^ (x1 + 51)) with (2 ^ (x1 + 52) * 4503599627370496).
    2:{ rewrite <- !Z.pow_add_r by lia. change 4503599627370496 with (2 ^ 52).
        rewrite <- Z.pow_add_r by lia. f_equal. lia. }
    rewrite (Z.mul_assoc (Zpos m1)), <- HE.
    replace (2 ^ j * (Zpos m2 * 2 ^ (x1 + 51)))
      with (Zpos m2 * (2 ^ (xn + x2) * 4503599627370496)).
    2:{ change 4503599627370496 with (2 ^ 52).
        rewrite <- Z.pow_add_r by lia.
        replace (xn + x2 + 52) with (j + (x1 + 51)) by (unfold j; lia).
        rewrite Z.pow_add_r by lia. ring. }
    ring. }
  assert (Hpos : 0 < Zpos mn * 2 ^ j) by (apply Z.mul_pos_pos; lia).
  destruct (Zpos mn * 2 ^ j) as [|Q|Q] eqn:HQv; try lia.
  unfold F64.div, SFdiv. cbn [xorb]. unfold SFdiv_core_binary. cbn [Zdigits2].
  rewrite Hd1, Hd2.
  replace (Z.min (fexp prec emax (prec + e1 - (prec + e2))) (e1 - e2))
    with (e1 - e2 - 53) by (unfold fexp, emin, prec, emax; lia).
  replace (e1 - e2 - (e1 - e2 - 53)) with 53 by lia.
  rewrite Z.shiftl_mul_pow2 by lia.
  rewrite (div_eucl_exact _ _ (Zpos Q)) by (try exact HQ; lia).
  assert (Hloc : new_location (Zpos m2) 0 = loc_Exact).
  { unfold new_location. destruct (Z.even (Zpos m2)); reflexivity. }
  rewrite Hloc.
  rewrite (binary_round_aux_shifted false Q mn (e1 - e2 - 53) j);
    try assumption; try lia.
  - f_equal. unfold j, x1, x2, xn. lia.
  - unfold emin, prec, emax, j, x1, x2, xn. lia.
Qed.

Lemma sub_same_integer (n : Z) : 0 <= n <= 2 ^ 53 -> F64.sub (of_Z n) (of_Z n) = zero.
Proof.
  intros Hn. destruct (Z.eq_dec n 0) as [-> | Hn0]; [reflexivity|].
  destruct (of_Z_shape n ltac:(lia)) as (m & e & -> & _).
  unfold F64.sub, SFsub. rewrite Z.sub_diag. reflexivity.
Qed.

Lemma sum_repeat (n : Z) (c : nat) :
  fold_right Z.add 0 (repeat n c) = n * Z.of_nat c.
Proof.
  induction c as [|c IH]; [simpl; lia|].
  cbn [repeat fold_right]. rewrite IH. lia.
Qed.

Lemma deviations_of_constant (a : float64) (c : nat) :
  F64.sub a a = zero ->
  fold_left (fun acc v => F64.add acc (F64.mul (F64.sub v a) (F64.sub v a)))
            (repeat a c) zero = zero.
Proof.
  intros Ha. induction c as [|c IH]; [reflexivity|].
  cbn [repeat fold_left]. rewrite Ha. exact IH.
Qed.

Lemma div_zero_count (c : float64) :
  positive_count c = true -> F64.div zero c = zero.
Proof.
  destruct c as [s|s| |s m e]; try discriminate; destruct s; try discriminate;
    reflexivity.
Qed.

End ConstantData.

(** X8.  When every present value is the same natural number [n] and [n] times
    the count does not exceed 2^53, [Average] returns exactly [n] and
    [StandardDeviation] returns exactly [0.0]. *)
Theorem constant_natural_data :
  forall (records : list (option Record)) (path : string) (n : Z) (c : nat),
    no_error records path ->
    present_values records path = repeat (of_Z n) (S c) ->
    (0 <= n)%Z ->
    (n * Z.of_nat (S c) <= 2 ^ 53)%Z ->
    Average records path = (Some (of_Z n), None) /\
    StandardDeviation records path = Returns (Some zero, None).
Proof.
  intros records path n c Hok Hp Hn Hnc.
  assert (Hone : (1 <= Z.of_nat (S c))%Z) by lia.
  assert (Hcount : positive_count (fcount (repeat (of_Z n) (S c))) = true).
  { apply count_positive; [left; reflexivity|discriminate]. }
  assert (HA : Average records path = (Some (of_Z n), None)).
  { destruct (Z.eq_dec n 0) as [-> | Hn0].
    - rewrite (Average_values path records (of_Z 0) (repeat (of_Z 0) c) Hok Hp).
      change (of_Z 0 :: repeat (of_Z 0) c) with (repeat (of_Z 0) (S c)).
      replace (fsum (repeat (of_Z 0) (S c))) with zero.
      + rewrite div_zero_count by exact Hcount. reflexivity.
      + unfold fsum. rewrite <- (map_repeat 0%Z (S c) of_Z). change zero with (of_Z 0) at 2.
        rewrite sum_from.
        * rewrite sum_repeat. reflexivity.
        * lia.
        * clear. induction (S c); simpl; constructor; [lia|assumption].
        * rewrite sum_repeat. lia.
    - rewrite (Average_naturals records path (repeat n (S c)) Hok).
      + rewrite sum_repeat, repeat_length.
        rewrite div_integers_exact by (try assumption; lia). reflexivity.
      + rewrite (map_repeat n (S c) of_Z). exact Hp.
      + discriminate.
      + clear -Hn. induction (S c); simpl; constructor; [lia|assumption].
      + rewrite sum_repeat. exact Hnc.
      + rewrite repeat_length. nia. }
  split; [exact HA|].
  rewrite StandardDeviation_is_loops, HA. cbn [fst snd].
  rewrite (deviation_loop_no_error path _ _ Hok), Hp.
  fold (fcount (repeat (of_Z n) (S c))).
  rewrite fcount_nonzero by discriminate.
  rewrite deviations_of_constant by (apply sub_same_integer; nia).
  rewrite div_zero_count by exact Hcount. reflexivity.
Qed.

Lemma constant_natural_data_witness :
  Average (map (number_record "value") (repeat (of_Z 7) 5)) "value" =
    (Some (of_Z 7), None) /\
  StandardDeviation (map (number_record "value") (repeat (of_Z 7) 5)) "value" =
    Returns (Some zero, None).
Proof.
  apply (constant_natural_data _ "value" 7 4).
  - repeat constructor.
  - reflexivity.
  - lia.
  - simpl. lia.
Defined.


Lemma sum_permutation (ns ns' : list Z) :
  Permutation ns ns' -> fold_right Z.add 0%Z ns = fold_right Z.add 0%Z ns'.
Proof.
  induction 1 as [|n l l' _ IH|n n' l|l l' l'' _ IH1 _ IH2]; simpl; lia.
Qed.

(** X9.  When the present values are natural numbers whose sum does not
    exceed 2^53, the result of [Average] does not depend on the order of the
    records: two collections without coercion error whose present values are
    the same natural numbers in different orders have the same average. *)
Theorem Average_of_natural_numbers_any_order :
  forall (records records' : list (option Record)) (path : string) (ns ns' : list Z),
    no_error records path ->
    no_error records' path ->
    present_values records path = map of_Z ns ->
    present_values records' path = map of_Z ns' ->
    Permutation ns ns' ->
    ns <> [] ->
    Forall (fun n => (0 <= n)%Z) ns ->
    (fold_right Z.add 0%Z ns <= 2 ^ 53)%Z ->
    (Z.of_nat (List.length ns) <= 2 ^ 53)%Z ->
    Average records path = Average records' path.
Proof.
  intros records records' path ns ns' Hok Hok' Hp Hp' Hperm Hne Hns Hsum Hlen.
  rewrite (Average_naturals records path ns Hok Hp Hne Hns Hsum Hlen).
  rewrite (Average_naturals records' path ns' Hok' Hp').
  - rewrite (sum_permutation ns ns' Hperm), (Permutation_length Hperm). reflexivity.
  - intros ->. apply Permutation_sym, Permutation_nil in Hperm. exact (Hne Hperm).
  - exact (Permutation_Forall Hperm Hns).
  - rewrite <- (sum_permutation ns ns' Hperm). exact Hsum.
  - rewrite <- (Permutation_length Hperm). exact Hlen.
Qed.

Lemma Average_of_natural_numbers_any_order_witness :
  Average (map (number_record "value") eight_values) "value" =
  Average (map (number_record "value") (rev eight_values)) "value".
Proof.
  apply (Average_of_natural_numbers_any_order _ _ "value"
           [2; 4; 4; 4; 5; 5; 7; 9]%Z (rev [2; 4; 4; 4; 5; 5; 7; 9]%Z)).
  - repeat constructor.
  - repeat constructor.
  - reflexivity.
  - reflexivity.
  - apply Permutation_rev.
  - discriminate.
  - repeat constructor; lia.
  - simpl. lia.
  - simpl. lia.
Defined.
